(** * D3D12 resource manager: capture-time bookkeeping

    A shallow embedding of [renderdoc/driver/d3d12/d3d12_manager.h]:
    the squeezed UAV description, the initial-contents variant, the
    reserved-resource tile mapping table, the GPU address range tracker,
    the portable descriptor handle and the resource record (Bake and
    Insert).

    Fixed-width integers are [Z] with the wrap-around written out, pointers
    are [Z] addresses (0 is NULL) into explicit stores, [std::map] is
    [gmap] and [std::vector] is [list]. *)

From stdpp Require Import base tactics option list gmap fin_maps fin_sets relations.
From Stdlib Require Import ZArith Lia.

Local Open Scope Z_scope.

(** ** Machine integers *)

Definition wrap8 (x : Z) : Z := x mod 2 ^ 8.
Definition wrap64 (x : Z) : Z := x mod 2 ^ 64.

Definition is_uint8 (x : Z) : Prop := 0 ≤ x < 2 ^ 8.
Definition is_uint64 (x : Z) : Prop := 0 ≤ x < 2 ^ 64.

(** A pointer is an address; [NULL] is address 0. *)
Abbreviation ptr := Z (only parsing).
Definition NULL : ptr := 0.

(** [ResourceId] wraps a 64-bit id; [ResourceId()] is the zero id. *)
Abbreviation ResourceId := Z (only parsing).
Definition ResourceId_null : ResourceId := 0.

(** ** enum D3D12ResourceType *)

Inductive D3D12ResourceType :=
| Resource_Unknown
| Resource_Device
| Resource_CommandAllocator
| Resource_CommandQueue
| Resource_CommandSignature
| Resource_DescriptorHeap
| Resource_Fence
| Resource_Heap
| Resource_PipelineState
| Resource_QueryHeap
| Resource_Resource
| Resource_GraphicsCommandList
| Resource_RootSignature
| Resource_PipelineLibrary.

(** ** D3D12_UNORDERED_ACCESS_VIEW_DESC_SQUEEZED *)

Module Squeeze.

(** The native description, read through the [Buffer] member of its
    union.  [Format], [ViewDimension] and [Flags] are enums (32-bit
    integers). *)
Record D3D12_BUFFER_UAV := {
  FirstElement : Z;          (* UINT64 *)
  NumElements : Z;           (* UINT *)
  StructureByteStride : Z;   (* UINT *)
  CounterOffsetInBytes : Z;  (* UINT64 *)
  Flags : Z                  (* D3D12_BUFFER_UAV_FLAGS *)
}.

Record D3D12_UNORDERED_ACCESS_VIEW_DESC := {
  Format : Z;                (* DXGI_FORMAT *)
  ViewDimension : Z;         (* D3D12_UAV_DIMENSION *)
  Buffer : D3D12_BUFFER_UAV
}.

Record D3D12_BUFFER_UAV_SQUEEZED := {
  sq_FirstElement : Z;
  sq_NumElements : Z;
  sq_StructureByteStride : Z;
  sq_CounterOffsetInBytes : Z
}.

Record D3D12_UNORDERED_ACCESS_VIEW_DESC_SQUEEZED := {
  sq_Format : Z;             (* uint8_t *)
  sq_ViewDimension : Z;      (* uint8_t *)
  sq_BufferFlags : Z;        (* uint8_t *)
  sq_Buffer : D3D12_BUFFER_UAV_SQUEEZED
}.

Definition Init (desc : D3D12_UNORDERED_ACCESS_VIEW_DESC)
  : D3D12_UNORDERED_ACCESS_VIEW_DESC_SQUEEZED :=
  {| sq_Format := wrap8 (Format desc);
     sq_ViewDimension := wrap8 (ViewDimension desc);
     sq_BufferFlags := wrap8 (Flags (Buffer desc));
     sq_Buffer :=
       {| sq_FirstElement := FirstElement (Buffer desc);
          sq_NumElements := NumElements (Buffer desc);
          sq_StructureByteStride := StructureByteStride (Buffer desc);
          sq_CounterOffsetInBytes := CounterOffsetInBytes (Buffer desc) |} |}.

Definition AsDesc (s : D3D12_UNORDERED_ACCESS_VIEW_DESC_SQUEEZED)
  : D3D12_UNORDERED_ACCESS_VIEW_DESC :=
  {| Format := sq_Format s;
     ViewDimension := sq_ViewDimension s;
     Buffer :=
       {| FirstElement := sq_FirstElement (sq_Buffer s);
          NumElements := sq_NumElements (sq_Buffer s);
          StructureByteStride := sq_StructureByteStride (sq_Buffer s);
          CounterOffsetInBytes := sq_CounterOffsetInBytes (sq_Buffer s);
          Flags := sq_BufferFlags s |} |}.

End Squeeze.

(** ** D3D12InitialContents *)

Module InitialContents.

Inductive Tag := Copy | MapDirect | Multisampled.

Record D3D12InitialContents := {
  tag : Tag;
  resourceType : D3D12ResourceType;
  descriptors : ptr;
  numDescriptors : Z;
  resource : ptr
}.

(** [D3D12InitialContents(D3D12Descriptor *d, uint32_t n)] *)
Definition of_descriptors (d : ptr) (n : Z) : D3D12InitialContents :=
  {| tag := Copy; resourceType := Resource_DescriptorHeap;
     descriptors := d; numDescriptors := n; resource := NULL |}.

(** [D3D12InitialContents(ID3D12DescriptorHeap *r)] *)
Definition of_heap (r : ptr) : D3D12InitialContents :=
  {| tag := Copy; resourceType := Resource_DescriptorHeap;
     descriptors := NULL; numDescriptors := 0; resource := r |}.

(** [D3D12InitialContents(ID3D12Resource *r)] *)
Definition of_resource (r : ptr) : D3D12InitialContents :=
  {| tag := Copy; resourceType := Resource_DescriptorHeap;
     descriptors := NULL; numDescriptors := 0; resource := r |}.

(** [D3D12InitialContents(Tag tg)] *)
Definition of_tag (tg : Tag) : D3D12InitialContents :=
  {| tag := tg; resourceType := Resource_DescriptorHeap;
     descriptors := NULL; numDescriptors := 0; resource := NULL |}.

(** [D3D12InitialContents()] *)
Definition default : D3D12InitialContents :=
  {| tag := Copy; resourceType := Resource_Unknown;
     descriptors := NULL; numDescriptors := 0; resource := NULL |}.

End InitialContents.

(** ** ReservedResource and TileMapping *)

Module Tiles.

Record D3D12_TILED_RESOURCE_COORDINATE := {
  X : Z; Y : Z; Z_ : Z; Subresource : Z
}.

Record D3D12_TILE_REGION_SIZE := {
  NumTiles : Z; UseBox : bool; Width : Z; Height : Z; Depth : Z
}.

(** The arrays a [TileMapping] owns; a NULL array is [None]. *)
Record TileMapping := {
  NumResourceRegions : Z;
  resourceRegionStartCoords : option (list D3D12_TILED_RESOURCE_COORDINATE);
  resourceRegionSizes : option (list D3D12_TILE_REGION_SIZE);
  NumRanges : Z;
  rangeFlags : option (list Z);
  heapRangeStarts : option (list Z);
  rangeTileCounts : option (list Z);
  tm_Flags : Z
}.

(** The arguments of [ReservedResource::Update]. *)
Record UpdateArgs := {
  a_NumResourceRegions : Z;
  pResourceRegionStartCoordinates : option (list D3D12_TILED_RESOURCE_COORDINATE);
  pResourceRegionSizes : option (list D3D12_TILE_REGION_SIZE);
  pHeap : ptr;
  a_NumRanges : Z;
  pRangeFlags : option (list Z);
  pHeapRangeStartOffsets : option (list Z);
  pRangeTileCounts : option (list Z);
  a_Flags : Z
}.

(** Of a [ReservedResource] only the [mappings] table is touched by
    [Update]; it is keyed by the heap pointer. *)
Record ReservedResource := {
  mappings : gmap Z TileMapping
}.

(** [ReservedResource::Update]: the table is cleared for a NULL heap; the
    branch for start coordinates without region sizes has an empty body. *)
Definition Update (res : ReservedResource) (a : UpdateArgs) : ReservedResource :=
  let res1 :=
    if decide (pHeap a = NULL) then {| mappings := ∅ |} else res in
  let res2 :=
    match pResourceRegionStartCoordinates a, pResourceRegionSizes a with
    | Some _, None => res1
    | _, _ => res1
    end in
  res2.

(** The one-tile region the defaulting rule asks for. *)
Definition one_tile (sz : D3D12_TILE_REGION_SIZE) : Prop := NumTiles sz = 1.

(** What a recorded mapping with one-tile regions for the supplied
    coordinates looks like. *)
Definition records_one_tile_regions (res : ReservedResource) (a : UpdateArgs) : Prop :=
  ∃ tm coords sizes,
    mappings res !! pHeap a = Some tm ∧
    pResourceRegionStartCoordinates a = Some coords ∧
    resourceRegionStartCoords tm = Some coords ∧
    resourceRegionSizes tm = Some sizes ∧
    length sizes = length coords ∧
    Forall one_tile sizes.

End Tiles.

(** ** GPUAddressRange and GPUAddressRangeTracker *)

Module Tracker.

Record GPUAddressRange := {
  start : Z;        (* D3D12_GPU_VIRTUAL_ADDRESS, UINT64 *)
  end_ : Z;         (* D3D12_GPU_VIRTUAL_ADDRESS, UINT64 *)
  id : ResourceId
}.

(** [GPUAddressRange::operator<(const D3D12_GPU_VIRTUAL_ADDRESS &o)]:
    a range is "less than" an address when the address is below its
    start. *)
Definition range_lt (r : GPUAddressRange) (o : Z) : bool :=
  if o <? start r then true else false.

(** [std::lower_bound(first, last, value)] over a vector, with positions
    as indices, as the standard library writes it: the loop probes the
    middle of a window of [count] elements with [*it < value] and keeps
    one half, until the window is empty.  [fuel] bounds the number of
    iterations; [count] iterations always suffice. *)
Fixpoint lower_bound_loop (l : list GPUAddressRange) (value : Z)
    (fuel first count : nat) : nat :=
  match fuel with
  | O => first
  | S fuel' =>
    if decide (count = 0)%nat then first
    else
      let step := (count / 2)%nat in
      let it := (first + step)%nat in
      match l !! it with
      | Some e =>
        if range_lt e value
        then lower_bound_loop l value fuel' (S it) (count - (step + 1))%nat
        else lower_bound_loop l value fuel' first step
      | None => first
      end
  end.

(** [std::lower_bound(addresses.begin(), addresses.end(), value)]; the
    result [length l] is [addresses.end()]. *)
Definition lower_bound (l : list GPUAddressRange) (value : Z) : nat :=
  lower_bound_loop l value (length l) 0%nat (length l).

(** [addresses.insert(it, range)] *)
Definition vector_insert (it : nat) (r : GPUAddressRange)
    (l : list GPUAddressRange) : list GPUAddressRange :=
  take it l ++ r :: drop it l.

(** [addresses.erase(it)] for a dereferenceable [it]. *)
Definition vector_erase (it : nat) (l : list GPUAddressRange)
  : list GPUAddressRange :=
  take it l ++ drop (S it) l.

(** The condition of the RDCASSERT in [AddTo]. *)
Definition AddTo_assert (addresses : list GPUAddressRange)
    (range : GPUAddressRange) : bool :=
  let it := lower_bound addresses (start range) in
  match addresses !! it with
  | None => true                                  (* it == addresses.end() *)
  | Some e =>
    bool_decide (it = 0%nat)                      (* it == addresses.begin() *)
    || bool_decide (start range < start e)%Z
    || bool_decide (start range >= end_ e)%Z
  end.

(** [AddTo]: the insert is done whatever the assertion says. *)
Definition AddTo (addresses : list GPUAddressRange)
    (range : GPUAddressRange) : list GPUAddressRange :=
  let it := lower_bound addresses (start range) in
  vector_insert it range addresses.

(** The condition of the RDCASSERT in [RemoveFrom]. *)
Definition RemoveFrom_assert (addresses : list GPUAddressRange)
    (baseAddr : Z) : bool :=
  let it := lower_bound addresses baseAddr in
  match addresses !! it with
  | None => false
  | Some e => bool_decide (baseAddr >= start e)%Z && bool_decide (baseAddr < end_ e)%Z
  end.

(** [RemoveFrom]: erasing [addresses.end()] is undefined, so there is no
    result in that case. *)
Definition RemoveFrom (addresses : list GPUAddressRange)
    (baseAddr : Z) : option (list GPUAddressRange) :=
  let it := lower_bound addresses baseAddr in
  match addresses !! it with
  | None => None
  | Some _ => Some (vector_erase it addresses)
  end.

(** [GetResIDFromAddr]: the pair of out-parameters [(id, offs)]. *)
Definition GetResIDFromAddr (addresses : list GPUAddressRange)
    (addr : Z) : ResourceId * Z :=
  let id0 := ResourceId_null in
  let offs0 := 0 in
  if decide (addr = 0) then (id0, offs0)
  else
    let it := lower_bound addresses addr in
    match addresses !! it with
    | None => (id0, offs0)
    | Some range =>
      if decide (addr < start range ∨ addr >= end_ range) then (id0, offs0)
      else (id range, wrap64 (addr - start range))
    end.

(** *** The vocabulary of the tracker's properties *)

(** An address lies in the half-open interval of a range. *)
Definition contains (r : GPUAddressRange) (a : Z) : Prop :=
  start r ≤ a < end_ r.

(** Two ranges overlap when they share an address. *)
Definition overlaps (r1 r2 : GPUAddressRange) : Prop :=
  ∃ a, contains r1 a ∧ contains r2 a.

Definition pairwise_disjoint (l : list GPUAddressRange) : Prop :=
  ∀ i j x y, i ≠ j → l !! i = Some x → l !! j = Some y → ¬ overlaps x y.

Definition sorted_ascending (l : list GPUAddressRange) : Prop :=
  ∀ i j x y, (i < j)%nat → l !! i = Some x → l !! j = Some y → start x ≤ start y.

Definition sorted_descending (l : list GPUAddressRange) : Prop :=
  ∀ i j x y, (i < j)%nat → l !! i = Some x → l !! j = Some y → start y ≤ start x.

(** A registered range is a non-empty interval of 64-bit addresses that
    does not hold the null address. *)
Definition range_wf (r : GPUAddressRange) : Prop :=
  0 < start r ∧ start r < end_ r ∧ end_ r < 2 ^ 64.

(** The state the tracker keeps: ordered as [AddTo] leaves it, with
    disjoint well-formed ranges. *)
Definition tracker_ok (l : list GPUAddressRange) : Prop :=
  sorted_descending l ∧ pairwise_disjoint l ∧ Forall range_wf l.

(** *** Sequences of calls *)

Inductive Op :=
| OpAddTo (range : GPUAddressRange)
| OpRemoveFrom (baseAddr : Z).

Definition step (l : list GPUAddressRange) (op : Op)
  : option (list GPUAddressRange) :=
  match op with
  | OpAddTo r => Some (AddTo l r)
  | OpRemoveFrom a => RemoveFrom l a
  end.

(** The states after each call of a sequence, in order. *)
Fixpoint run (l : list GPUAddressRange) (ops : list Op)
  : option (list (list GPUAddressRange)) :=
  match ops with
  | [] => Some []
  | op :: ops' =>
    l' ← step l op;
    tr ← run l' ops';
    Some (l' :: tr)
  end.

(** What the caller owes: a new range overlaps no registered range, a
    removed address lies in a registered range. *)
Definition op_pre (l : list GPUAddressRange) (op : Op) : Prop :=
  match op with
  | OpAddTo r => ∀ x, x ∈ l → ¬ overlaps r x
  | OpRemoveFrom a => ∃ x, x ∈ l ∧ contains x a
  end.

Fixpoint ops_pre (l : list GPUAddressRange) (ops : list Op) : Prop :=
  match ops with
  | [] => True
  | op :: ops' =>
    op_pre l op ∧
    match step l op with
    | Some l' => ops_pre l' ops'
    | None => True
    end
  end.

End Tracker.

(** ** Descriptors and portable handles *)

Module Portable.

(** The two fields every [D3D12Descriptor] has at the same place in both
    arms of its union: the owning heap and the index in it. *)
Record D3D12Descriptor := {
  heap : ptr;       (* WrappedID3D12DescriptorHeap * *)
  idx : Z           (* uint32_t *)
}.

Record D3D12_CPU_DESCRIPTOR_HANDLE := { handle_ptr : Z }.

Record PortableHandle := {
  ph_heap : ResourceId;
  index : Z         (* uint32_t *)
}.

(** [D3D12Descriptor::operator D3D12_CPU_DESCRIPTOR_HANDLE]: the handle
    is the address of the descriptor. *)
Definition to_handle (this : ptr) : D3D12_CPU_DESCRIPTOR_HANDLE :=
  {| handle_ptr := this |}.

(** [GetWrapped(D3D12_CPU_DESCRIPTOR_HANDLE)] *)
Definition GetWrapped (handle : D3D12_CPU_DESCRIPTOR_HANDLE) : ptr :=
  handle_ptr handle.

(** Modelled from the spec: the descriptor heap wrapper
    ([WrappedID3D12DescriptorHeap], only forward-declared in the header):
    it has a resource id and owns a contiguous table of descriptors
    addressed by index. *)
Record WrappedID3D12DescriptorHeap := {
  GetResourceID : ResourceId;
  GetDescriptors : ptr;        (* address of the first descriptor *)
  GetNumDescriptors : Z
}.

(** Memory as the conversions see it: the descriptors and the heap
    wrappers, by address. *)
Record Memory := {
  descriptor_at : gmap Z D3D12Descriptor;
  heap_at : gmap Z WrappedID3D12DescriptorHeap
}.

(** Modelled from the spec: the identity manager's table behind
    [GetLiveResource] (core/resource_manager.h, not among the sources at
    hand), from a resource id to the live object registered for it; an
    id that was never registered is not found. *)
Abbreviation D3D12ResourceManager := (gmap Z Z) (only parsing).

Section conversions.
(** [sizeof(D3D12Descriptor)]; the header asserts it is at most 64. *)
Variable sizeof_D3D12Descriptor : Z.

(** Modelled from the spec: [ToPortableHandle] (declared in the header,
    its definition is not among the sources at hand) reads the
    descriptor's owning heap id and index. *)
Definition ToPortableHandle (mem : Memory) (handle : ptr) : option PortableHandle :=
  d ← descriptor_at mem !! handle;
  h ← heap_at mem !! heap d;
  Some {| ph_heap := GetResourceID h; index := idx d |}.

(** Modelled from the spec: [DescriptorFromPortableHandle] (declared in
    the header, its definition is not among the sources at hand) resolves
    the heap id through the identity manager and indexes into that heap's
    descriptor storage. *)
Definition DescriptorFromPortableHandle (mem : Memory)
    (manager : D3D12ResourceManager) (handle : PortableHandle) : option ptr :=
  hp ← manager !! ph_heap handle;
  h ← heap_at mem !! hp;
  Some (GetDescriptors h + index handle * sizeof_D3D12Descriptor).

(** A live descriptor handle: its pointer is the address of a
    descriptor stored in a heap registered with the manager, and the
    descriptor's [heap] and [idx] say so. *)
Definition live_handle (mem : Memory) (manager : D3D12ResourceManager)
    (h : D3D12_CPU_DESCRIPTOR_HANDLE) : Prop :=
  ∃ d H,
    descriptor_at mem !! GetWrapped h = Some d ∧
    heap_at mem !! heap d = Some H ∧
    manager !! GetResourceID H = Some (heap d) ∧
    0 ≤ idx d < GetNumDescriptors H ∧
    GetWrapped h = GetDescriptors H + idx d * sizeof_D3D12Descriptor.
End conversions.

End Portable.

(** ** D3D12ResourceRecord *)

Module Records.

(** [Chunk *] and [D3D12_RESOURCE_BARRIER] are opaque to this header. *)
Abbreviation Chunk := Z (only parsing).
Abbreviation D3D12_RESOURCE_BARRIER := Z (only parsing).

Record CmdListRecordingInfo := {
  barriers : list D3D12_RESOURCE_BARRIER;
  tiledResources : gset Z;
  dirtied : gset Z;
  boundDescs : list ptr;
  bundles : list ptr
}.

(** The record with the members of its base class that [Bake] and
    [Insert] use: [DataWritten], [Parents] (in iteration order) and
    [m_Chunks]. *)
Record D3D12ResourceRecord := {
  DataWritten : bool;
  Parents : list ptr;
  m_Chunks : gmap Z Chunk;
  type : D3D12ResourceType;
  ContainsExecuteIndirect : bool;
  bakedCommands : ptr;
  cmdInfo : ptr
}.

Definition set_DataWritten (b : bool) (r : D3D12ResourceRecord) : D3D12ResourceRecord :=
  {| DataWritten := b; Parents := Parents r; m_Chunks := m_Chunks r;
     type := type r; ContainsExecuteIndirect := ContainsExecuteIndirect r;
     bakedCommands := bakedCommands r; cmdInfo := cmdInfo r |}.

Definition set_m_Chunks (c : gmap Z Chunk) (r : D3D12ResourceRecord) : D3D12ResourceRecord :=
  {| DataWritten := DataWritten r; Parents := Parents r; m_Chunks := c;
     type := type r; ContainsExecuteIndirect := ContainsExecuteIndirect r;
     bakedCommands := bakedCommands r; cmdInfo := cmdInfo r |}.

Definition set_barriers (v : list D3D12_RESOURCE_BARRIER) (c : CmdListRecordingInfo) :=
  {| barriers := v; tiledResources := tiledResources c; dirtied := dirtied c;
     boundDescs := boundDescs c; bundles := bundles c |}.

Definition set_dirtied (v : gset Z) (c : CmdListRecordingInfo) :=
  {| barriers := barriers c; tiledResources := tiledResources c; dirtied := v;
     boundDescs := boundDescs c; bundles := bundles c |}.

Definition set_boundDescs (v : list ptr) (c : CmdListRecordingInfo) :=
  {| barriers := barriers c; tiledResources := tiledResources c; dirtied := dirtied c;
     boundDescs := v; bundles := bundles c |}.

Definition set_bundles (v : list ptr) (c : CmdListRecordingInfo) :=
  {| barriers := barriers c; tiledResources := tiledResources c; dirtied := dirtied c;
     boundDescs := boundDescs c; bundles := v |}.

(** *** Bake *)

(** The objects [Bake] reaches: records and recording infos, by address. *)
Record Store := {
  records : gmap Z D3D12ResourceRecord;
  cmdInfos : gmap Z CmdListRecordingInfo
}.

(** [a.swap(b)] on one member of two objects of a store that may be the
    same object: two writes, the second into the store the first left. *)
Definition swap_member {O A : Type} (get : O → A) (set : A → O → O)
    (p q : ptr) (m : gmap Z O) : option (gmap Z O) :=
  a ← m !! p;
  b ← m !! q;
  let m1 := <[p := set (get b) a]> m in
  b1 ← m1 !! q;
  Some (<[q := set (get a) b1]> m1).

(** Modelled from the spec: [ResourceRecord::SwapChunks] (base class, in
    core/resource_manager.h, not among the sources at hand) exchanges the
    chunk lists of two records. *)
Definition SwapChunks (this other : ptr) (s : Store) : option Store :=
  recs ← swap_member m_Chunks set_m_Chunks this other (records s);
  Some {| records := recs; cmdInfos := cmdInfos s |}.

(** [this->cmdInfo] and [this->bakedCommands->cmdInfo], read from the
    store. *)
Definition live_cmdInfo (this : ptr) (s : Store) : option ptr :=
  r ← records s !! this; Some (cmdInfo r).

Definition baked_cmdInfo (this : ptr) (s : Store) : option ptr :=
  r ← records s !! this;
  b ← records s !! bakedCommands r;
  Some (cmdInfo b).

Definition swap_cmdInfo_member {A : Type} (get : CmdListRecordingInfo → A)
    (set : A → CmdListRecordingInfo → CmdListRecordingInfo)
    (this : ptr) (s : Store) : option Store :=
  p ← live_cmdInfo this s;
  q ← baked_cmdInfo this s;
  cis ← swap_member get set p q (cmdInfos s);
  Some {| records := records s; cmdInfos := cis |}.

(** [D3D12ResourceRecord::Bake]; a NULL or dangling pointer that is
    dereferenced gives no result.  The RDCASSERT has no effect on the
    state. *)
Definition Bake (this : ptr) (s : Store) : option Store :=
  r ← records s !! this;
  s1 ← SwapChunks this (bakedCommands r) s;
  s2 ← swap_cmdInfo_member barriers set_barriers this s1;
  s3 ← swap_cmdInfo_member dirtied set_dirtied this s2;
  s4 ← swap_cmdInfo_member boundDescs set_boundDescs this s3;
  swap_cmdInfo_member bundles set_bundles this s4.

(** *** Insert *)

(** The state [Insert] works on: the records, the [recordlist] it is
    given, and the history of its [recordlist.insert] calls (the record
    of each call, oldest first). *)
Record InsertState := {
  recs : gmap Z D3D12ResourceRecord;
  recordlist : gmap Z Chunk;
  inserted : list ptr
}.

(** [recordlist.insert(m_Chunks.begin(), m_Chunks.end())]: a key that is
    already in the map keeps its chunk. *)
Definition map_insert_range (recordlist chunks : gmap Z Chunk) : gmap Z Chunk :=
  recordlist ∪ chunks.

(** The loop over [Parents], given the recursive call. *)
Definition visit_parents (Insert_rec : ptr → InsertState → option InsertState)
  : list ptr → InsertState → option InsertState :=
  fix go (its : list ptr) (st : InsertState) : option InsertState :=
    match its with
    | [] => Some st
    | it :: its' =>
      p ← recs st !! it;
      st' ← (if DataWritten p then Some st else Insert_rec it st);
      go its' st'
    end.

(** [D3D12ResourceRecord::Insert]; the call on a parent runs the same
    body.  [fuel] bounds the depth of the recursion. *)
Fixpoint Insert (fuel : nat) (this : ptr) (st : InsertState) : option InsertState :=
  match fuel with
  | O => None
  | S fuel' =>
    r ← recs st !! this;
    let dataWritten := DataWritten r in
    let st1 := {| recs := <[this := set_DataWritten true r]> (recs st);
                  recordlist := recordlist st;
                  inserted := inserted st |} in
    st2 ← visit_parents (Insert fuel') (Parents r) st1;
    r2 ← recs st2 !! this;
    if dataWritten then Some st2
    else Some {| recs := recs st2;
                 recordlist := map_insert_range (recordlist st2) (m_Chunks r2);
                 inserted := inserted st2 ++ [this] |}
  end.

(** A sequence of calls from outside, one record after the other. *)
Fixpoint InsertAll (fuel : nat) (roots : list ptr) (st : InsertState)
  : option InsertState :=
  match roots with
  | [] => Some st
  | r :: roots' => st' ← Insert fuel r st; InsertAll fuel roots' st'
  end.

Definition initial (G : gmap Z D3D12ResourceRecord) : InsertState :=
  {| recs := G; recordlist := ∅; inserted := [] |}.

(** *** The parent graph *)

Definition edge (G : gmap Z D3D12ResourceRecord) (r p : ptr) : Prop :=
  ∃ rec, G !! r = Some rec ∧ p ∈ Parents rec.

(** No record is its own ancestor. *)
Definition acyclic (G : gmap Z D3D12ResourceRecord) : Prop :=
  ∀ r, ¬ tc (edge G) r r.

(** Every parent pointer points to a record. *)
Definition closed (G : gmap Z D3D12ResourceRecord) : Prop :=
  ∀ r p, edge G r p → is_Some (G !! p).

(** No record has been written yet. *)
Definition unwritten (G : gmap Z D3D12ResourceRecord) : Prop :=
  ∀ r rec, G !! r = Some rec → DataWritten rec = false.

(** In the history, the parents of every record come before it. *)
Definition parents_first (G : gmap Z D3D12ResourceRecord) (log : list ptr) : Prop :=
  ∀ j r p, log !! j = Some r → edge G r p →
    ∃ i, (i < j)%nat ∧ log !! i = Some p.

(** The chunks the calls of a history put into an empty [recordlist]. *)
Definition chunks_of (G : gmap Z D3D12ResourceRecord) (r : ptr) : gmap Z Chunk :=
  match G !! r with Some rec => m_Chunks rec | None => ∅ end.

Definition replay (G : gmap Z D3D12ResourceRecord) (log : list ptr) : gmap Z Chunk :=
  foldl (λ m r, map_insert_range m (chunks_of G r)) ∅ log.

(** *** The invariant of the traversal *)

Definition written (m : gmap Z D3D12ResourceRecord) (p : Z) : Prop :=
  ∃ r, m !! p = Some r ∧ DataWritten r = true.

(** [Insert] writes the [DataWritten] flags only: parents and chunks
    stay those of the graph [G] it started on. *)
Definition same_graph (G m : gmap Z D3D12ResourceRecord) : Prop :=
  ∀ p, (λ r, (Parents r, m_Chunks r)) <$> m !! p
       = (λ r, (Parents r, m_Chunks r)) <$> G !! p.

(** [K] holds the records whose call is still running: flagged as
    written, chunks not yet inserted. *)
Definition Inv (G : gmap Z D3D12ResourceRecord) (K : gset Z) (st : InsertState) : Prop :=
  same_graph G (recs st) ∧
  NoDup (inserted st) ∧
  (∀ p, written (recs st) p ↔ p ∈ K ∨ p ∈ inserted st) ∧
  (∀ p, p ∈ K → p ∉ inserted st) ∧
  parents_first G (inserted st) ∧
  recordlist st = replay G (inserted st).

End Records.

(** The three byte members of a squeezed description hold bytes. *)
Definition squeezed_bytes (s : Squeeze.D3D12_UNORDERED_ACCESS_VIEW_DESC_SQUEEZED) : Prop :=
  is_uint8 (Squeeze.sq_Format s) ∧ is_uint8 (Squeeze.sq_ViewDimension s) ∧
  is_uint8 (Squeeze.sq_BufferFlags s).

(** ** D3D12Descriptor::GetType *)

Module Descriptor.

(** [enum class D3D12DescriptorType], by the integer values of its
    enumerators: [Sampler] is 0 and the others count up from 0x1000. *)
Definition Sampler : Z := 0.
Definition CBV : Z := 4096.
Definition SRV : Z := 4097.
Definition UAV : Z := 4098.
Definition RTV : Z := 4099.
Definition DSV : Z := 4100.
Definition Undefined : Z := 4101.

(** [D3D12Descriptor::GetType], as a function of the [nonsamp.type]
    field, which shares its storage with the filter of a sampler. *)
Definition GetType (nonsamp_type : Z) : Z :=
  if decide (nonsamp_type < CBV) then Sampler else nonsamp_type.

End Descriptor.

(** ** More vocabulary for the records *)

(** [D3D12ResourceRecord(ResourceId id)]: the record has no type yet and
    both of its pointers are NULL; the members its base class sets are
    taken as they come. *)
Definition D3D12ResourceRecord_new (base_DataWritten : bool)
    (base_Parents : list Z) (base_Chunks : gmap Z Z)
  : Records.D3D12ResourceRecord :=
  {| Records.DataWritten := base_DataWritten; Records.Parents := base_Parents;
     Records.m_Chunks := base_Chunks; Records.type := Resource_Unknown;
     Records.ContainsExecuteIndirect := false;
     Records.bakedCommands := NULL; Records.cmdInfo := NULL |}.


(** From [m] to [m'] nothing happened but [DataWritten] flags being set. *)
Definition flags_only (m m' : gmap Z Records.D3D12ResourceRecord) : Prop :=
  ∀ p, m' !! p = m !! p ∨
       ∃ r, m !! p = Some r ∧ m' !! p = Some (Records.set_DataWritten true r).

(** What a call does to the state, beyond its result. *)
Definition effect (r : Z) (st st' : Records.InsertState) : Prop :=
  flags_only (Records.recs st) (Records.recs st') ∧
  Records.recordlist st ⊆ Records.recordlist st' ∧
  Records.inserted st `prefix_of` Records.inserted st' ∧
  (∀ x, x ∈ Records.inserted st' → x ∈ Records.inserted st ∨ rtc (Records.edge (Records.recs st)) r x).

(** The number of records that are not written yet. *)
Definition unwritten_count (m : gmap Z Records.D3D12ResourceRecord) : nat :=
  size (filter (λ kv, Records.DataWritten kv.2 = false) m).

(** A recording info with the four lists [Bake] exchanges taken from
    [b] and everything else from [a]. *)
Definition with_lists_of (a b : Records.CmdListRecordingInfo)
  : Records.CmdListRecordingInfo :=
  {| Records.barriers := Records.barriers b;
     Records.tiledResources := Records.tiledResources a;
     Records.dirtied := Records.dirtied b;
     Records.boundDescs := Records.boundDescs b;
     Records.bundles := Records.bundles b |}.

(** ** Sample data *)

(** A diamond: record 4 has parents 2 and 3, which both have parent 1. *)
Definition diamond_record (parents : list Z) (chunks : gmap Z Z)
  : Records.D3D12ResourceRecord :=
  {| Records.DataWritten := false; Records.Parents := parents;
     Records.m_Chunks := chunks; Records.type := Resource_Resource;
     Records.ContainsExecuteIndirect := false;
     Records.bakedCommands := NULL; Records.cmdInfo := NULL |}.

Definition diamond : gmap Z Records.D3D12ResourceRecord :=
  <[4 := diamond_record [2; 3] {[ 40 := 104 ]}]>
  (<[3 := diamond_record [1] {[ 30 := 103 ]}]>
  (<[2 := diamond_record [1] {[ 20 := 102 ]}]>
  (<[1 := diamond_record [] {[ 10 := 101 ]}]> ∅))).

(** A live command list at 100 with its baked record at 200. *)
Definition bake_store : Records.Store :=
  let live :=
    {| Records.DataWritten := false; Records.Parents := [];
       Records.m_Chunks := {[ 1 := 11; 2 := 12 ]};
       Records.type := Resource_GraphicsCommandList;
       Records.ContainsExecuteIndirect := false;
       Records.bakedCommands := 200; Records.cmdInfo := 300 |} in
  let baked :=
    {| Records.DataWritten := false; Records.Parents := [];
       Records.m_Chunks := ∅;
       Records.type := Resource_GraphicsCommandList;
       Records.ContainsExecuteIndirect := false;
       Records.bakedCommands := NULL; Records.cmdInfo := 400 |} in
  let ci_live :=
    {| Records.barriers := [5; 6]; Records.tiledResources := ∅;
       Records.dirtied := {[ 7 ]}; Records.boundDescs := [8; 8];
       Records.bundles := [9] |} in
  let ci_baked :=
    {| Records.barriers := []; Records.tiledResources := ∅;
       Records.dirtied := ∅; Records.boundDescs := [];
       Records.bundles := [] |} in
  {| Records.records := <[100 := live]> (<[200 := baked]> ∅);
     Records.cmdInfos := <[300 := ci_live]> (<[400 := ci_baked]> ∅) |}.

(** Three ranges for the tracker: two registered, and one above both. *)
Definition range_low : Tracker.GPUAddressRange :=
  {| Tracker.start := 10; Tracker.end_ := 20; Tracker.id := 1 |}.

Definition range_high : Tracker.GPUAddressRange :=
  {| Tracker.start := 30; Tracker.end_ := 40; Tracker.id := 2 |}.

Definition range_new : Tracker.GPUAddressRange :=
  {| Tracker.start := 50; Tracker.end_ := 60; Tracker.id := 3 |}.

(** Two records that are each other's parent. *)
Definition two_cycle : gmap Z Records.D3D12ResourceRecord :=
  <[2 := diamond_record [1] {[ 20 := 102 ]}]>
  (<[1 := diamond_record [2] {[ 10 := 101 ]}]> ∅).

(** * Theorems *)

Lemma wrap8_id x : is_uint8 x → wrap8 x = x.
Proof. intros H. unfold wrap8. apply Z.mod_small. exact H. Qed.

Lemma wrap64_id x : is_uint64 x → wrap64 x = x.
Proof. intros H. unfold wrap64. apply Z.mod_small. exact H. Qed.


(** C9. Squeezing a UAV description whose [Format], [ViewDimension] and
    [Buffer.Flags] fit in 8 bits and expanding it again gives back the
    same description: all seven fields are preserved. *)
Theorem uav_squeeze_roundtrip (desc : Squeeze.D3D12_UNORDERED_ACCESS_VIEW_DESC) :
  is_uint8 (Squeeze.Format desc) →
  is_uint8 (Squeeze.ViewDimension desc) →
  is_uint8 (Squeeze.Flags (Squeeze.Buffer desc)) →
  Squeeze.AsDesc (Squeeze.Init desc) = desc.
Proof.
  intros HF HV HB.
  destruct desc as [f v [fe ne st co fl]]; simpl in *.
  unfold Squeeze.AsDesc, Squeeze.Init; simpl.
  rewrite !wrap8_id by assumption.
  reflexivity.
Qed.

Lemma uav_squeeze_roundtrip_witness :
  let d := {| Squeeze.Format := 41; Squeeze.ViewDimension := 1;
              Squeeze.Buffer :=
                {| Squeeze.FirstElement := 2 ^ 40; Squeeze.NumElements := 1024;
                   Squeeze.StructureByteStride := 16;
                   Squeeze.CounterOffsetInBytes := 4096; Squeeze.Flags := 1 |} |} in
  Squeeze.AsDesc (Squeeze.Init d) = d.
Proof.
  intros d. apply (uav_squeeze_roundtrip d); unfold is_uint8; simpl; lia.
Defined.

(** C10. Every non-default constructor of [D3D12InitialContents] sets
    [resourceType] to [Resource_DescriptorHeap]; the default constructor
    sets [Resource_Unknown]; every constructor but the Tag-only one sets
    [tag] to [Copy], and the Tag-only one stores the tag it is given. *)
Theorem initial_contents_constructors :
  (∀ d n, InitialContents.resourceType (InitialContents.of_descriptors d n)
          = Resource_DescriptorHeap) ∧
  (∀ r, InitialContents.resourceType (InitialContents.of_heap r)
        = Resource_DescriptorHeap) ∧
  (∀ r, InitialContents.resourceType (InitialContents.of_resource r)
        = Resource_DescriptorHeap) ∧
  (∀ tg, InitialContents.resourceType (InitialContents.of_tag tg)
         = Resource_DescriptorHeap) ∧
  InitialContents.resourceType InitialContents.default = Resource_Unknown ∧
  Resource_Unknown ≠ Resource_DescriptorHeap ∧
  (∀ d n, InitialContents.tag (InitialContents.of_descriptors d n)
          = InitialContents.Copy) ∧
  (∀ r, InitialContents.tag (InitialContents.of_heap r) = InitialContents.Copy) ∧
  (∀ r, InitialContents.tag (InitialContents.of_resource r) = InitialContents.Copy) ∧
  InitialContents.tag InitialContents.default = InitialContents.Copy ∧
  (∀ tg, InitialContents.tag (InitialContents.of_tag tg) = tg).
Proof. repeat split; discriminate. Qed.

(** ** The address range tracker *)

Section lower_bound.
Import Tracker.
Implicit Types (l : list GPUAddressRange) (r : GPUAddressRange).

Lemma range_lt_true r o : range_lt r o = true ↔ o < start r.
Proof. unfold range_lt. destruct (Z.ltb_spec o (start r)); split; (lia || done). Qed.

Lemma range_lt_false r o : range_lt r o = false ↔ start r ≤ o.
Proof. unfold range_lt. destruct (Z.ltb_spec o (start r)); split; (lia || done). Qed.

(** The loop returns the partition point of the window it is given,
    whenever the window is partitioned by [range_lt _ value]. *)
Lemma lower_bound_loop_spec l value fuel : ∀ first count,
  (count ≤ fuel)%nat →
  (first + count ≤ length l)%nat →
  (∀ i j x y, (first ≤ i)%nat → (i < j)%nat → (j < first + count)%nat →
     l !! i = Some x → l !! j = Some y →
     range_lt y value = true → range_lt x value = true) →
  let k := lower_bound_loop l value fuel first count in
  (first ≤ k ≤ first + count)%nat ∧
  (∀ i x, (first ≤ i < k)%nat → l !! i = Some x → range_lt x value = true) ∧
  (∀ i x, (k ≤ i < first + count)%nat → l !! i = Some x → range_lt x value = false).
Proof.
  induction fuel as [|fuel IH]; intros first count Hfuel Hlen Hpart;
    cbn [lower_bound_loop].
  { assert (count = 0%nat) as -> by lia.
    split; [lia|]. split; intros; lia. }
  destruct (decide (count = 0%nat)) as [->|Hc].
  { split; [lia|]. split; intros; lia. }
  assert (Hstep : (count / 2 < count)%nat) by (apply Nat.div_lt; lia).
  set (step := (count / 2)%nat) in *.
  destruct (lookup_lt_is_Some_2 l (first + step)%nat) as [e He]; [lia|].
  rewrite He.
  destruct (range_lt e value) eqn:Hlt.
  - destruct (IH (S (first + step)) (count - (step + 1))%nat) as (Hk & Hlo & Hhi);
      [lia | lia | |].
    { intros i j x y ? ? ?. apply Hpart; lia. }
    split; [lia|]. split.
    + intros i x Hi Hx.
      destruct (decide (i < first + step)%nat) as [Hlt'|Hge].
      * eapply (Hpart i (first + step)%nat); eauto; lia.
      * destruct (decide (i = first + step)%nat) as [->|Hne].
        -- congruence.
        -- eapply Hlo; [|exact Hx]. lia.
    + intros i x Hi Hx. eapply Hhi; [|exact Hx]. lia.
  - destruct (IH first step) as (Hk & Hlo & Hhi); [lia | lia | |].
    { intros i j x y ? ? ?. apply Hpart; lia. }
    split; [lia|]. split.
    + intros i x Hi Hx. eapply Hlo; [|exact Hx]. lia.
    + intros i x Hi Hx.
      destruct (decide (i < first + step)%nat) as [Hlt'|Hge].
      * eapply Hhi; [|exact Hx]. lia.
      * destruct (decide (i = first + step)%nat) as [->|Hne].
        -- congruence.
        -- destruct (range_lt x value) eqn:Hx'; [|done].
           rewrite <- Hlt. symmetry.
           eapply (Hpart (first + step)%nat i); eauto; lia.
Qed.

(** On a vector in descending order of start, [lower_bound] is the
    position of the first range that starts at or below the value. *)
Lemma lower_bound_spec l value :
  sorted_descending l →
  let k := lower_bound l value in
  (k ≤ length l)%nat ∧
  (∀ i x, (i < k)%nat → l !! i = Some x → value < start x) ∧
  (∀ i x, (k ≤ i)%nat → l !! i = Some x → start x ≤ value).
Proof.
  intros Hs. unfold lower_bound.
  destruct (lower_bound_loop_spec l value (length l) 0%nat (length l))
    as (Hk & Hlo & Hhi); [lia | lia | |].
  { intros i j x y _ Hij _ Hx Hy. rewrite !range_lt_true.
    specialize (Hs i j x y Hij Hx Hy). lia. }
  simpl in *. split; [lia|]. split.
  - intros i x Hi Hx. apply range_lt_true. eapply Hlo; [|exact Hx]. lia.
  - intros i x Hi Hx. apply range_lt_false. eapply Hhi; [|exact Hx].
    apply lookup_lt_Some in Hx. lia.
Qed.

Lemma lower_bound_le l value : (lower_bound l value ≤ length l)%nat.
Proof.
  unfold lower_bound.
  assert (∀ fuel first count, (first + count ≤ length l)%nat →
            (lower_bound_loop l value fuel first count ≤ length l)%nat) as H.
  { induction fuel as [|fuel IH]; intros first count Hle;
      cbn [lower_bound_loop]; [lia|].
    destruct (decide (count = 0%nat)); [lia|].
    assert ((count / 2 < count)%nat) by (apply Nat.div_lt; lia).
    destruct (l !! (first + count / 2)%nat) as [e|]; [|lia].
    destruct (range_lt e value); apply IH; lia. }
  apply H. lia.
Qed.

Lemma lookup_vector_insert l it r i :
  (it ≤ length l)%nat →
  vector_insert it r l !! i =
    if decide (i < it)%nat then l !! i
    else if decide (i = it) then Some r
    else l !! (i - 1)%nat.
Proof.
  intros Hit. unfold vector_insert.
  destruct (decide (i < it)%nat) as [Hlt|Hge].
  - rewrite lookup_app_l by (rewrite length_take; lia).
    rewrite lookup_take_lt; [done|lia].
  - rewrite lookup_app_r by (rewrite length_take; lia).
    rewrite length_take, Nat.min_l by lia.
    destruct (decide (i = it)) as [->|Hne].
    + by rewrite Nat.sub_diag.
    + destruct (i - it)%nat as [|n] eqn:Hn; [lia|]. simpl.
      rewrite lookup_drop. f_equal. lia.
Qed.

Lemma lookup_vector_erase l it i :
  (it < length l)%nat →
  vector_erase it l !! i =
    if decide (i < it)%nat then l !! i else l !! (S i).
Proof.
  intros Hit. unfold vector_erase.
  destruct (decide (i < it)%nat) as [Hlt|Hge].
  - rewrite lookup_app_l by (rewrite length_take; lia).
    rewrite lookup_take_lt; [done|lia].
  - rewrite lookup_app_r by (rewrite length_take; lia).
    rewrite length_take, Nat.min_l by lia.
    rewrite lookup_drop. f_equal. lia.
Qed.

End lower_bound.

Section tracker.
Import Tracker.
Implicit Types (l : list GPUAddressRange) (r : GPUAddressRange).

Lemma overlaps_sym r1 r2 : overlaps r1 r2 → overlaps r2 r1.
Proof. intros (a & H1 & H2). exists a. done. Qed.

Lemma AddTo_sorted l r :
  sorted_descending l → sorted_descending (AddTo l r).
Proof.
  intros Hs. unfold AddTo.
  destruct (lower_bound_spec l (start r) Hs) as (Hk & Hlo & Hhi).
  set (k := lower_bound l (start r)) in *.
  intros i j x y Hij.
  rewrite !lookup_vector_insert by done.
  repeat case_decide; intros Hx Hy; simplify_eq; try lia.
  - eapply Hs; [|exact Hx|exact Hy]. lia.
  - apply Z.lt_le_incl. eapply Hlo; [|exact Hx]. lia.
  - eapply Hs; [|exact Hx|exact Hy]. lia.
  - eapply Hhi; [|exact Hy]. lia.
  - eapply Hs; [|exact Hx|exact Hy]. lia.
Qed.

Lemma AddTo_elem_of l r x : x ∈ AddTo l r ↔ x = r ∨ x ∈ l.
Proof.
  unfold AddTo, vector_insert.
  set (k := lower_bound l (start r)).
  transitivity (x = r ∨ x ∈ take k l ++ drop k l); [|by rewrite take_drop].
  rewrite !elem_of_app, elem_of_cons. tauto.
Qed.

Lemma AddTo_disjoint l r :
  pairwise_disjoint l → (∀ x, x ∈ l → ¬ overlaps r x) →
  pairwise_disjoint (AddTo l r).
Proof.
  intros Hd Hr. unfold AddTo.
  pose proof (lower_bound_le l (start r)) as Hk.
  set (k := lower_bound l (start r)) in *.
  intros i j x y Hij.
  rewrite !lookup_vector_insert by done.
  repeat case_decide; intros Hx Hy; simplify_eq; try lia;
    try (eapply Hd; [|exact Hx|exact Hy]; lia).
  - intros Ho. eapply Hr; [|apply overlaps_sym, Ho].
    eapply list_elem_of_lookup_2, Hx.
  - eapply Hr. eapply list_elem_of_lookup_2, Hy.
  - eapply Hr. eapply list_elem_of_lookup_2, Hy.
  - intros Ho. eapply Hr; [|apply overlaps_sym, Ho].
    eapply list_elem_of_lookup_2, Hx.
Qed.

Lemma vector_erase_sorted l it :
  (it < length l)%nat → sorted_descending l → sorted_descending (vector_erase it l).
Proof.
  intros Hit Hs i j x y Hij.
  rewrite !lookup_vector_erase by done.
  repeat case_decide; intros Hx Hy; try lia;
    (eapply Hs; [|exact Hx|exact Hy]; lia).
Qed.

Lemma vector_erase_disjoint l it :
  (it < length l)%nat → pairwise_disjoint l → pairwise_disjoint (vector_erase it l).
Proof.
  intros Hit Hd i j x y Hij.
  rewrite !lookup_vector_erase by done.
  repeat case_decide; intros Hx Hy;
    (eapply Hd; [|exact Hx|exact Hy]; lia).
Qed.

(** A removal of an address that some registered range holds finds a
    position to erase. *)
Lemma RemoveFrom_defined l a :
  sorted_descending l → (∃ x, x ∈ l ∧ contains x a) →
  ∃ x, l !! lower_bound l a = Some x ∧
       RemoveFrom l a = Some (vector_erase (lower_bound l a) l).
Proof.
  intros Hs (x & Hx & Hc).
  destruct (lower_bound_spec l a Hs) as (Hk & Hlo & Hhi).
  apply list_elem_of_lookup in Hx as [j Hj].
  assert (lower_bound l a ≤ j)%nat as Hkj.
  { destruct (decide (lower_bound l a ≤ j)%nat); [done|].
    assert (a < start x) by (eapply Hlo; [|exact Hj]; lia).
    unfold contains in Hc. lia. }
  destruct (lookup_lt_is_Some_2 l (lower_bound l a)) as [e He].
  { apply lookup_lt_Some in Hj. lia. }
  exists e. split; [done|]. unfold RemoveFrom. by rewrite He.
Qed.

Lemma step_invariant l op l' :
  sorted_descending l → pairwise_disjoint l → op_pre l op →
  step l op = Some l' →
  sorted_descending l' ∧ pairwise_disjoint l'.
Proof.
  intros Hs Hd Hpre Hstep. destruct op as [r|a]; simpl in *.
  - simplify_eq. split; [by apply AddTo_sorted | by apply AddTo_disjoint].
  - destruct (RemoveFrom_defined l a Hs Hpre) as (e & He & Hrm).
    rewrite Hrm in Hstep. simplify_eq.
    apply lookup_lt_Some in He.
    split; [by apply vector_erase_sorted | by apply vector_erase_disjoint].
Qed.

Lemma step_defined l op :
  sorted_descending l → op_pre l op → is_Some (step l op).
Proof.
  intros Hs Hpre. destruct op as [r|a]; simpl in *; [done|].
  destruct (RemoveFrom_defined l a Hs Hpre) as (e & He & Hrm).
  rewrite Hrm. done.
Qed.

Lemma run_invariant ops : ∀ l,
  sorted_descending l → pairwise_disjoint l → ops_pre l ops →
  ∃ tr, run l ops = Some tr ∧ length tr = length ops ∧
        Forall (λ t, sorted_descending t ∧ pairwise_disjoint t) tr.
Proof.
  induction ops as [|op ops IH]; intros l Hs Hd Hpre; simpl in *.
  { exists []. done. }
  destruct Hpre as [Hop Hrest].
  destruct (step_defined l op Hs Hop) as [l' Hl'].
  rewrite Hl' in Hrest |- *. simpl.
  destruct (step_invariant l op l' Hs Hd Hop Hl') as [Hs' Hd'].
  destruct (IH l' Hs' Hd' Hrest) as (tr & Hrun & Hlen & Hall).
  rewrite Hrun. simpl. exists (l' :: tr).
  split; [done|]. split; [simpl; lia|]. by constructor.
Qed.

Lemma sorted_descending_nil : sorted_descending [].
Proof. intros i j x y _ Hx. by rewrite lookup_nil in Hx. Qed.

Lemma pairwise_disjoint_nil : pairwise_disjoint [].
Proof. intros i j x y _ Hx. by rewrite lookup_nil in Hx. Qed.

End tracker.

Section lookup.
Import Tracker.
Implicit Types (l : list GPUAddressRange) (r : GPUAddressRange).

(** In a well-kept tracker the binary search lands on the one range that
    holds the address. *)
Lemma lower_bound_finds l r a :
  tracker_ok l → r ∈ l → contains r a →
  l !! lower_bound l a = Some r.
Proof.
  intros (Hs & Hd & Hwf) Hr Hc.
  destruct (lower_bound_spec l a Hs) as (Hk & Hlo & Hhi).
  set (k := lower_bound l a) in *.
  apply list_elem_of_lookup in Hr as [j Hj].
  unfold contains in Hc.
  assert (k ≤ j)%nat as Hkj.
  { destruct (decide (k ≤ j)%nat); [done|].
    assert (a < start r) by (eapply Hlo; [|exact Hj]; lia). lia. }
  destruct (decide (k = j)) as [->|Hne]; [done|].
  destruct (lookup_lt_is_Some_2 l k) as [q Hq].
  { apply lookup_lt_Some in Hj. lia. }
  exfalso.
  assert (start q ≤ a) by (eapply Hhi; [|exact Hq]; lia).
  assert (start r ≤ start q) by (eapply (Hs k j); [|exact Hq|exact Hj]; lia).
  assert (range_wf q) as (? & ? & ?).
  { rewrite Forall_forall in Hwf. eapply Hwf, list_elem_of_lookup_2, Hq. }
  apply (Hd k j q r Hne Hq Hj).
  exists (start q). unfold contains. lia.
Qed.

Lemma GetResIDFromAddr_hit l r a :
  tracker_ok l → r ∈ l → contains r a →
  GetResIDFromAddr l a = (id r, a - start r).
Proof.
  intros Hok Hr Hc.
  pose proof (lower_bound_finds l r a Hok Hr Hc) as Hfind.
  destruct Hok as (_ & _ & Hwf).
  rewrite Forall_forall in Hwf. destruct (Hwf r Hr) as (H0 & Hse & He).
  unfold contains in Hc. unfold GetResIDFromAddr.
  rewrite decide_False by lia. rewrite Hfind.
  rewrite decide_False by lia.
  rewrite wrap64_id by (unfold is_uint64; lia). done.
Qed.

Lemma GetResIDFromAddr_miss l a :
  (∀ r, r ∈ l → ¬ contains r a) →
  GetResIDFromAddr l a = (ResourceId_null, 0).
Proof.
  intros Hno. unfold GetResIDFromAddr.
  case_decide; [done|].
  destruct (l !! lower_bound l a) as [q|] eqn:Hq; [|done].
  case_decide; [done|]. exfalso.
  apply (Hno q); [eapply list_elem_of_lookup_2, Hq|].
  unfold contains. lia.
Qed.

Lemma AddTo_assert_false l r :
  sorted_descending l → AddTo_assert l r = false →
  ∃ x, l !! lower_bound l (start r) = Some x ∧ contains x (start r).
Proof.
  intros Hs. unfold AddTo_assert.
  destruct (lower_bound_spec l (start r) Hs) as (Hk & Hlo & Hhi).
  destruct (l !! lower_bound l (start r)) as [e|] eqn:He; [|done].
  rewrite !orb_false_iff, !bool_decide_eq_false.
  intros [[_ H1] H2]. exists e. split; [done|]. unfold contains. lia.
Qed.

(** The two mutators keep a well-kept tracker well kept, and
[RemoveFrom] erases the range that holds the address. *)
Lemma tracker_ok_AddTo l r :
  tracker_ok l → range_wf r → (∀ x, x ∈ l → ¬ overlaps r x) →
  tracker_ok (AddTo l r).
Proof.
  intros (Hs & Hd & Hwf) Hr Hno. split; [|split].
  - by apply AddTo_sorted.
  - by apply AddTo_disjoint.
  - rewrite Forall_forall in *. intros x Hx.
    apply AddTo_elem_of in Hx as [->|Hx]; [done|by apply Hwf].
Qed.

Lemma tracker_ok_RemoveFrom l x a :
  tracker_ok l → x ∈ l → contains x a →
  ∃ k, l !! k = Some x ∧
       RemoveFrom_assert l a = true ∧
       RemoveFrom l a = Some (vector_erase k l) ∧
       tracker_ok (vector_erase k l).
Proof.
  intros Hok Hx Hc.
  pose proof (lower_bound_finds l x a Hok Hx Hc) as Hk.
  destruct Hok as (Hs & Hd & Hwf).
  exists (lower_bound l a). split; [done|]. split; [|split].
  - unfold RemoveFrom_assert. rewrite Hk. unfold contains in Hc.
    apply andb_true_iff. split; apply bool_decide_eq_true; lia.
  - unfold RemoveFrom. by rewrite Hk.
  - pose proof (lookup_lt_Some _ _ _ Hk) as Hlt. split; [|split].
    + by apply vector_erase_sorted.
    + by apply vector_erase_disjoint.
    + rewrite Forall_forall in *. intros y Hy. apply Hwf.
      apply list_elem_of_lookup in Hy as [i Hi].
      rewrite lookup_vector_erase in Hi by done.
      case_decide; eapply list_elem_of_lookup_2, Hi.
Qed.

End lookup.

(** C1. In a tracker whose ranges are kept as [AddTo] leaves them
    (ordered, pairwise disjoint, each a non-empty interval above the null
    address), [GetResIDFromAddr] gives the id of the range that holds the
    address and the distance to its start; for an address that no
    registered range holds it gives the zero id and offset 0, which covers
    address 0 and the end of a range.  The lookup is a total function: it
    has a result for every tracker and address. *)
Theorem GetResIDFromAddr_spec (l : list Tracker.GPUAddressRange) :
  Tracker.tracker_ok l →
  (∀ a r, r ∈ l → Tracker.contains r a →
     Tracker.GetResIDFromAddr l a = (Tracker.id r, a - Tracker.start r)) ∧
  (∀ a, (∀ r, r ∈ l → ¬ Tracker.contains r a) →
     Tracker.GetResIDFromAddr l a = (ResourceId_null, 0)) ∧
  Tracker.GetResIDFromAddr l 0 = (ResourceId_null, 0) ∧
  (∀ r, r ∈ l → (∀ q, q ∈ l → ¬ Tracker.contains q (Tracker.end_ r)) →
     Tracker.GetResIDFromAddr l (Tracker.end_ r) = (ResourceId_null, 0)).
Proof.
  intros Hok. split; [|split; [|split]].
  - intros a r Hr Hc. by apply GetResIDFromAddr_hit.
  - intros a Hno. by apply GetResIDFromAddr_miss.
  - reflexivity.
  - intros r _ Hno. by apply GetResIDFromAddr_miss.
Qed.

(** C2 fails as stated: after two registrations in increasing address
    order the vector holds the higher range first. *)
Lemma tracker_not_ascending :
  let r1 := {| Tracker.start := 10; Tracker.end_ := 20; Tracker.id := 1 |} in
  let r2 := {| Tracker.start := 30; Tracker.end_ := 40; Tracker.id := 2 |} in
  let ops := [Tracker.OpAddTo r1; Tracker.OpAddTo r2] in
  Tracker.ops_pre [] ops ∧
  Tracker.run [] ops = Some [[r1]; [r2; r1]] ∧
  ¬ Tracker.sorted_ascending [r2; r1].
Proof.
  intros r1 r2 ops. split; [|split].
  - simpl. split.
    + intros x Hx. by apply elem_of_nil in Hx.
    + split; [|done]. intros x Hx.
      apply list_elem_of_singleton in Hx as ->.
      intros (a & Ha & Hb). unfold Tracker.contains in *. simpl in *. lia.
  - reflexivity.
  - intros Hasc.
    specialize (Hasc 0%nat 1%nat r2 r1 ltac:(lia) eq_refl eq_refl).
    simpl in Hasc. lia.
Qed.

(** C2 (amended). For every sequence of [AddTo] and [RemoveFrom] calls
    that starts from the empty tracker, each [AddTo] given a range that
    overlaps no registered range and each [RemoveFrom] an address inside a
    registered range, every call has a result and after every call the
    vector is in descending order of start address with pairwise
    non-overlapping ranges. *)
Theorem tracker_sorted_descending_disjoint (ops : list Tracker.Op) :
  Tracker.ops_pre [] ops →
  ∃ tr, Tracker.run [] ops = Some tr ∧ length tr = length ops ∧
        Forall (λ t, Tracker.sorted_descending t ∧ Tracker.pairwise_disjoint t) tr.
Proof.
  apply run_invariant.
  - apply sorted_descending_nil.
  - apply pairwise_disjoint_nil.
Qed.

Example lower_bound_between :
  Tracker.lower_bound
    [ {| Tracker.start := 30; Tracker.end_ := 40; Tracker.id := 2 |};
      {| Tracker.start := 10; Tracker.end_ := 20; Tracker.id := 1 |} ] 25 = 1%nat.
Proof. reflexivity. Qed.

Example GetResIDFromAddr_inside :
  Tracker.GetResIDFromAddr
    [ {| Tracker.start := 30; Tracker.end_ := 40; Tracker.id := 2 |};
      {| Tracker.start := 10; Tracker.end_ := 20; Tracker.id := 1 |} ] 37 = (2, 7).
Proof. reflexivity. Qed.

Example GetResIDFromAddr_gap :
  Tracker.GetResIDFromAddr
    [ {| Tracker.start := 30; Tracker.end_ := 40; Tracker.id := 2 |};
      {| Tracker.start := 10; Tracker.end_ := 20; Tracker.id := 1 |} ] 25
  = (ResourceId_null, 0).
Proof. reflexivity. Qed.

(** Goals about a fixed short vector: enumerate the positions. *)
Ltac by_positions :=
  let i := fresh "i" in
  let j := fresh "j" in
  intros i j ? ? ? ? ?;
  destruct i as [|[|[|i]]]; destruct j as [|[|[|j]]];
  simpl in *; simplify_eq; simpl in *; try lia;
  try (intros (? & ? & ?); unfold Tracker.contains in *; simpl in *; lia).

Lemma tracker_ok_two :
  Tracker.tracker_ok
    [ {| Tracker.start := 30; Tracker.end_ := 40; Tracker.id := 2 |};
      {| Tracker.start := 10; Tracker.end_ := 20; Tracker.id := 1 |} ].
Proof.
  split; [|split].
  - unfold Tracker.sorted_descending. by_positions.
  - unfold Tracker.pairwise_disjoint. by_positions.
  - repeat constructor; simpl; lia.
Defined.

Lemma GetResIDFromAddr_spec_witness :
  let r1 := {| Tracker.start := 10; Tracker.end_ := 20; Tracker.id := 1 |} in
  let r2 := {| Tracker.start := 30; Tracker.end_ := 40; Tracker.id := 2 |} in
  Tracker.tracker_ok [r2; r1] ∧
  Tracker.GetResIDFromAddr [r2; r1] 15 = (1, 15 - 10) ∧
  Tracker.GetResIDFromAddr [r2; r1] 20 = (ResourceId_null, 0).
Proof.
  intros r1 r2.
  destruct (GetResIDFromAddr_spec [r2; r1] tracker_ok_two) as (Hhit & Hmiss & _ & Hend).
  split; [exact tracker_ok_two|]. split.
  - apply (Hhit 15 r1).
    + apply elem_of_cons. right. apply elem_of_cons. by left.
    + unfold Tracker.contains. simpl. lia.
  - apply (Hend r1).
    + apply elem_of_cons. right. apply elem_of_cons. by left.
    + intros q Hq.
      apply elem_of_cons in Hq as [->|Hq];
        [|apply elem_of_cons in Hq as [->|Hq]; [|by apply elem_of_nil in Hq]];
        unfold Tracker.contains; simpl; lia.
Defined.

Lemma tracker_sorted_descending_disjoint_witness :
  let r1 := {| Tracker.start := 10; Tracker.end_ := 20; Tracker.id := 1 |} in
  let r2 := {| Tracker.start := 30; Tracker.end_ := 40; Tracker.id := 2 |} in
  let ops := [Tracker.OpAddTo r1; Tracker.OpAddTo r2; Tracker.OpRemoveFrom 15] in
  Tracker.ops_pre [] ops ∧
  ∃ tr, Tracker.run [] ops = Some tr ∧ length tr = length ops ∧
        Forall (λ t, Tracker.sorted_descending t ∧ Tracker.pairwise_disjoint t) tr.
Proof.
  intros r1 r2 ops.
  assert (Tracker.ops_pre [] ops) as Hpre.
  { simpl. split.
    - intros x Hx. by apply elem_of_nil in Hx.
    - split.
      + intros x Hx. apply list_elem_of_singleton in Hx as ->.
        intros (a & Ha & Hb). unfold Tracker.contains in *. simpl in *. lia.
      + split; [|done]. exists r1. split.
        * apply elem_of_cons. right. apply elem_of_cons. by left.
        * unfold Tracker.contains. simpl. lia. }
  split; [exact Hpre|].
  apply (tracker_sorted_descending_disjoint ops Hpre).
Defined.

(** The assertion of [AddTo] read off its four disjuncts: it is false
    exactly when the insertion point is neither [begin()] nor [end()] and
    the start of the new range lies inside the range found there. *)
Lemma AddTo_assert_false_at (l : list Tracker.GPUAddressRange)
    (r : Tracker.GPUAddressRange) :
  Tracker.AddTo_assert l r = false ↔
  ∃ x, Tracker.lower_bound l (Tracker.start r) ≠ 0%nat ∧
       l !! Tracker.lower_bound l (Tracker.start r) = Some x ∧
       Tracker.contains x (Tracker.start r).
Proof.
  unfold Tracker.AddTo_assert, Tracker.contains.
  destruct (l !! Tracker.lower_bound l (Tracker.start r)) as [e|] eqn:He.
  - rewrite !orb_false_iff, !bool_decide_eq_false. split.
    + intros [[H0 H1] H2]. exists e. split; [done|]. split; [done|]. lia.
    + intros (x & H0 & Hx & Hc). simplify_eq. split; [split; [done|]|]; lia.
  - split; [done|]. intros (x & _ & Hx & _). done.
Qed.

(** In a well-kept tracker the same, without positions: the start of the
    new range lies inside a registered range, and some registered range
    starts above it. *)
Lemma AddTo_assert_false_where (l : list Tracker.GPUAddressRange)
    (r : Tracker.GPUAddressRange) :
  Tracker.tracker_ok l →
  Tracker.AddTo_assert l r = false ↔
  (∃ x, x ∈ l ∧ Tracker.contains x (Tracker.start r)) ∧
  (∃ y, y ∈ l ∧ Tracker.start r < Tracker.start y).
Proof.
  intros Hok. pose proof Hok as (Hs & _ & _).
  destruct (lower_bound_spec l (Tracker.start r) Hs) as (Hk & Hlo & Hhi).
  rewrite AddTo_assert_false_at. split.
  - intros (x & H0 & Hx & Hc). split.
    + exists x. split; [eapply list_elem_of_lookup_2, Hx|done].
    + destruct (lookup_lt_is_Some_2 l 0%nat) as [y Hy].
      { apply lookup_lt_Some in Hx. lia. }
      exists y. split; [eapply list_elem_of_lookup_2, Hy|].
      eapply Hlo; [|exact Hy]. lia.
  - intros [(x & Hx & Hc) (y & Hy & Hlt)].
    exists x. split; [|split; [by apply lower_bound_finds|done]].
    intros H0. apply list_elem_of_lookup in Hy as [j Hj].
    assert (Tracker.start y ≤ Tracker.start r); [|lia].
    eapply Hhi; [|exact Hj]. lia.
Qed.

(** C3 fails as stated. With [30,40) and [10,20) registered, the new
    range [25,35) overlaps [30,40) and the new range [35,45) overlaps it
    too, and the assertion holds for both: the first starts in no
    registered range, the second starts in the range the vector begins
    with. *)
Lemma AddTo_assert_misses_overlap :
  let r1 := {| Tracker.start := 10; Tracker.end_ := 20; Tracker.id := 1 |} in
  let r2 := {| Tracker.start := 30; Tracker.end_ := 40; Tracker.id := 2 |} in
  let new := {| Tracker.start := 25; Tracker.end_ := 35; Tracker.id := 3 |} in
  let new' := {| Tracker.start := 35; Tracker.end_ := 45; Tracker.id := 4 |} in
  Tracker.tracker_ok [r2; r1] ∧ r2 ∈ [r2; r1] ∧
  (Tracker.overlaps new r2 ∧ Tracker.AddTo_assert [r2; r1] new = true) ∧
  (Tracker.overlaps new' r2 ∧ Tracker.AddTo_assert [r2; r1] new' = true).
Proof.
  intros r1 r2 new new'. split; [exact tracker_ok_two|]. split; [|split].
  - apply elem_of_cons. by left.
  - split; [|reflexivity]. exists 30. unfold Tracker.contains. simpl. lia.
  - split; [|reflexivity]. exists 35. unfold Tracker.contains. simpl. lia.
Qed.

(** C3 (amended). On a vector in the order [AddTo] maintains and for a
    non-empty new range, the assertion of [AddTo] is false exactly when
    the insertion point is neither [begin()] nor [end()] and the start of
    the new range lies inside the range at the insertion point; in a
    well-kept tracker that is exactly when the start of the new range
    lies inside a registered range and some registered range starts above
    it.  Whenever the assertion is false the new range overlaps a
    registered range, and for every new range that overlaps no registered
    range the assertion is true and the range is inserted. *)
Theorem AddTo_assert_exact (l : list Tracker.GPUAddressRange)
    (r : Tracker.GPUAddressRange) :
  Tracker.sorted_descending l →
  Tracker.start r < Tracker.end_ r →
  (Tracker.AddTo_assert l r = false ↔
     ∃ x, Tracker.lower_bound l (Tracker.start r) ≠ 0%nat ∧
          l !! Tracker.lower_bound l (Tracker.start r) = Some x ∧
          Tracker.contains x (Tracker.start r)) ∧
  (Tracker.tracker_ok l →
     (Tracker.AddTo_assert l r = false ↔
        (∃ x, x ∈ l ∧ Tracker.contains x (Tracker.start r)) ∧
        (∃ y, y ∈ l ∧ Tracker.start r < Tracker.start y))) ∧
  (Tracker.AddTo_assert l r = false →
     ∃ x, l !! Tracker.lower_bound l (Tracker.start r) = Some x ∧
          x ∈ l ∧ Tracker.contains x (Tracker.start r) ∧ Tracker.overlaps r x) ∧
  ((∀ x, x ∈ l → ¬ Tracker.overlaps r x) →
     Tracker.AddTo_assert l r = true ∧ r ∈ Tracker.AddTo l r).
Proof.
  intros Hs Hne.
  assert (Tracker.AddTo_assert l r = false →
     ∃ x, l !! Tracker.lower_bound l (Tracker.start r) = Some x ∧
          x ∈ l ∧ Tracker.contains x (Tracker.start r) ∧ Tracker.overlaps r x) as Hfalse.
  { intros Hf. apply AddTo_assert_false_at in Hf as (x & _ & Hx & Hc).
    exists x. split; [done|]. split; [eapply list_elem_of_lookup_2, Hx|].
    split; [done|]. exists (Tracker.start r). split; [|done].
    unfold Tracker.contains. lia. }
  split; [apply AddTo_assert_false_at|].
  split; [apply AddTo_assert_false_where|].
  split; [done|].
  intros Hno. split.
  - destruct (Tracker.AddTo_assert l r) eqn:Ha; [done|].
    destruct (Hfalse eq_refl) as (x & _ & Hx & _ & Ho).
    by destruct (Hno x Hx).
  - apply AddTo_elem_of. by left.
Qed.

Lemma AddTo_assert_exact_witness :
  let r1 := {| Tracker.start := 10; Tracker.end_ := 20; Tracker.id := 1 |} in
  let r2 := {| Tracker.start := 30; Tracker.end_ := 40; Tracker.id := 2 |} in
  let new := {| Tracker.start := 15; Tracker.end_ := 35; Tracker.id := 3 |} in
  Tracker.sorted_descending [r2; r1] ∧
  Tracker.start new < Tracker.end_ new ∧
  Tracker.tracker_ok [r2; r1] ∧
  Tracker.AddTo_assert [r2; r1] new = false ∧
  ∃ x, x ∈ [r2; r1] ∧ Tracker.overlaps new x.
Proof.
  intros r1 r2 new.
  assert (Tracker.sorted_descending [r2; r1]) as Hs by apply tracker_ok_two.
  assert (Tracker.start new < Tracker.end_ new) as Hne by (simpl; lia).
  destruct (AddTo_assert_exact [r2; r1] new Hs Hne) as (_ & Hwhere & Hfalse & _).
  assert (Tracker.AddTo_assert [r2; r1] new = false) as Hf.
  { apply (Hwhere tracker_ok_two). split.
    - exists r1. split.
      + apply elem_of_cons. right. apply elem_of_cons. by left.
      + unfold Tracker.contains. simpl. lia.
    - exists r2. split; [apply elem_of_cons; by left|]. simpl. lia. }
  split; [exact Hs|]. split; [exact Hne|]. split; [exact tracker_ok_two|].
  split; [exact Hf|].
  destruct (Hfalse Hf) as (x & _ & Hx & _ & Ho).
  exists x. split; [exact Hx|exact Ho].
Defined.

(** ** Tile mappings *)

(** C7. [Update] with a NULL heap leaves the mappings table of the
    reserved resource empty, whatever bindings it had: no heap binding
    remains. *)
Theorem Update_null_heap_clears (res : Tiles.ReservedResource) (a : Tiles.UpdateArgs) :
  Tiles.pHeap a = NULL →
  Tiles.mappings (Tiles.Update res a) = ∅ ∧
  size (Tiles.mappings (Tiles.Update res a)) = 0%nat.
Proof.
  intros Hnull. unfold Tiles.Update.
  rewrite decide_True by done.
  destruct (Tiles.pResourceRegionStartCoordinates a), (Tiles.pResourceRegionSizes a);
    simpl; split; (done || apply map_size_empty).
Qed.

Lemma Update_null_heap_clears_witness :
  let tm := {| Tiles.NumResourceRegions := 1; Tiles.resourceRegionStartCoords := None;
               Tiles.resourceRegionSizes := None; Tiles.NumRanges := 1;
               Tiles.rangeFlags := None; Tiles.heapRangeStarts := None;
               Tiles.rangeTileCounts := None; Tiles.tm_Flags := 0 |} in
  let res := {| Tiles.mappings := <[4096 := tm]> (<[8192 := tm]> ∅) |} in
  let a := {| Tiles.a_NumResourceRegions := 1;
              Tiles.pResourceRegionStartCoordinates := None;
              Tiles.pResourceRegionSizes := None;
              Tiles.pHeap := NULL; Tiles.a_NumRanges := 1;
              Tiles.pRangeFlags := Some [1]; Tiles.pHeapRangeStartOffsets := None;
              Tiles.pRangeTileCounts := None; Tiles.a_Flags := 0 |} in
  size (Tiles.mappings res) = 2%nat ∧
  Tiles.mappings (Tiles.Update res a) = ∅ ∧
  size (Tiles.mappings (Tiles.Update res a)) = 0%nat.
Proof.
  intros tm res a. split; [reflexivity|].
  apply (Update_null_heap_clears res a). reflexivity.
Defined.

(** C8. At an update with one start coordinate, no region sizes and a
    heap to bind, [Update] records nothing: the resource has no mapping
    for the heap afterwards, so no one-tile region either. *)
Theorem Update_records_no_region :
  let res := {| Tiles.mappings := ∅ |} in
  let a := {| Tiles.a_NumResourceRegions := 1;
              Tiles.pResourceRegionStartCoordinates :=
                Some [ {| Tiles.X := 0; Tiles.Y := 0; Tiles.Z_ := 0;
                          Tiles.Subresource := 0 |} ];
              Tiles.pResourceRegionSizes := None;
              Tiles.pHeap := 4096; Tiles.a_NumRanges := 1;
              Tiles.pRangeFlags := Some [0]; Tiles.pHeapRangeStartOffsets := Some [0];
              Tiles.pRangeTileCounts := Some [1]; Tiles.a_Flags := 0 |} in
  Tiles.Update res a = res ∧
  Tiles.mappings (Tiles.Update res a) !! Tiles.pHeap a = None ∧
  ¬ Tiles.records_one_tile_regions (Tiles.Update res a) a.
Proof.
  intros res a. split; [reflexivity|]. split; [reflexivity|].
  intros (tm & coords & sizes & Hm & _). discriminate Hm.
Qed.

(** ** Portable handles *)

(** C4. For a live descriptor handle, converting it to a portable handle
    and resolving that through the manager gives the descriptor the handle
    points to, and so the handle itself. *)
Theorem portable_handle_roundtrip (sz : Z) (mem : Portable.Memory)
    (manager : Portable.D3D12ResourceManager)
    (h : Portable.D3D12_CPU_DESCRIPTOR_HANDLE) :
  Portable.live_handle sz mem manager h →
  ∃ ph d,
    Portable.ToPortableHandle mem (Portable.GetWrapped h) = Some ph ∧
    Portable.DescriptorFromPortableHandle sz mem manager ph = Some d ∧
    d = Portable.GetWrapped h ∧
    Portable.to_handle d = h.
Proof.
  intros (d & H & Hd & HH & Hm & Hidx & Haddr).
  exists {| Portable.ph_heap := Portable.GetResourceID H;
            Portable.index := Portable.idx d |}, (Portable.GetWrapped h).
  split; [|split; [|split]].
  - unfold Portable.ToPortableHandle. rewrite Hd. simpl. rewrite HH. done.
  - unfold Portable.DescriptorFromPortableHandle. simpl.
    rewrite Hm. simpl. rewrite HH. simpl. by rewrite Haddr.
  - done.
  - by destruct h.
Qed.

Lemma portable_handle_roundtrip_witness :
  let H := {| Portable.GetResourceID := 7; Portable.GetDescriptors := 65536;
              Portable.GetNumDescriptors := 4 |} in
  let mem := {| Portable.descriptor_at :=
                  <[65536 + 2 * 64 := {| Portable.heap := 512; Portable.idx := 2 |}]> ∅;
                Portable.heap_at := <[512 := H]> ∅ |} in
  let manager : Portable.D3D12ResourceManager := <[7 := 512]> ∅ in
  let h := Portable.to_handle (65536 + 2 * 64) in
  Portable.live_handle 64 mem manager h ∧
  ∃ ph d,
    Portable.ToPortableHandle mem (Portable.GetWrapped h) = Some ph ∧
    Portable.DescriptorFromPortableHandle 64 mem manager ph = Some d ∧
    d = Portable.GetWrapped h ∧
    Portable.to_handle d = h.
Proof.
  intros H mem manager h.
  assert (Portable.live_handle 64 mem manager h) as Hlive.
  { exists {| Portable.heap := 512; Portable.idx := 2 |}, H.
    split; [reflexivity|]. split; [reflexivity|]. split; [reflexivity|].
    split; [simpl; lia | reflexivity]. }
  split; [exact Hlive|].
  apply (portable_handle_roundtrip 64 mem manager h Hlive).
Defined.

(** ** Bake *)

Section bake.
Import Records.

Lemma swap_member_Some {O A : Type} (get : O → A) (set : A → O → O)
    (p q : Z) (m : gmap Z O) (a b : O) :
  m !! p = Some a → m !! q = Some b →
  swap_member get set p q m =
    Some (<[q := set (get a) (if decide (p = q) then set (get b) a else b)]>
            (<[p := set (get b) a]> m)).
Proof.
  intros Ha Hb. unfold swap_member. rewrite Ha, Hb. simpl.
  destruct (decide (p = q)) as [->|Hne].
  - by rewrite lookup_insert_eq.
  - rewrite lookup_insert_ne by done. by rewrite Hb.
Qed.

End bake.

(** C6. For a record whose [cmdInfo] is allocated and whose
    [bakedCommands] record is allocated with a [cmdInfo] of its own,
    [Bake] has a result in which the live record holds the chunks and the
    barriers, dirtied, boundDescs and bundles lists the baked record held
    before the call, and the baked record holds those the live record
    held; the pointers of both records are as before. *)
Theorem Bake_exchanges (this : Z) (s : Records.Store)
    (rec baked : Records.D3D12ResourceRecord)
    (ci_live ci_baked : Records.CmdListRecordingInfo) :
  Records.records s !! this = Some rec →
  Records.records s !! Records.bakedCommands rec = Some baked →
  Records.cmdInfos s !! Records.cmdInfo rec = Some ci_live →
  Records.cmdInfos s !! Records.cmdInfo baked = Some ci_baked →
  ∃ s' rec' baked' ci_live' ci_baked',
    Records.Bake this s = Some s' ∧
    Records.records s' !! this = Some rec' ∧
    Records.records s' !! Records.bakedCommands rec = Some baked' ∧
    Records.cmdInfos s' !! Records.cmdInfo rec = Some ci_live' ∧
    Records.cmdInfos s' !! Records.cmdInfo baked = Some ci_baked' ∧
    Records.bakedCommands rec' = Records.bakedCommands rec ∧
    Records.cmdInfo rec' = Records.cmdInfo rec ∧
    Records.cmdInfo baked' = Records.cmdInfo baked ∧
    Records.m_Chunks rec' = Records.m_Chunks baked ∧
    Records.m_Chunks baked' = Records.m_Chunks rec ∧
    Records.barriers ci_live' = Records.barriers ci_baked ∧
    Records.dirtied ci_live' = Records.dirtied ci_baked ∧
    Records.boundDescs ci_live' = Records.boundDescs ci_baked ∧
    Records.bundles ci_live' = Records.bundles ci_baked ∧
    Records.barriers ci_baked' = Records.barriers ci_live ∧
    Records.dirtied ci_baked' = Records.dirtied ci_live ∧
    Records.boundDescs ci_baked' = Records.boundDescs ci_live ∧
    Records.bundles ci_baked' = Records.bundles ci_live.
Proof.
  intros Hrec Hbaked Hlive Hcib.
  unfold Records.Bake, Records.SwapChunks. rewrite Hrec. simpl.
  rewrite (swap_member_Some _ _ _ _ _ rec baked) by done. simpl.
  set (recs1 := <[Records.bakedCommands rec := _]> _).
  assert (∃ rec' baked',
    recs1 !! this = Some rec' ∧ recs1 !! Records.bakedCommands rec = Some baked' ∧
    Records.bakedCommands rec' = Records.bakedCommands rec ∧
    Records.cmdInfo rec' = Records.cmdInfo rec ∧
    Records.cmdInfo baked' = Records.cmdInfo baked ∧
    Records.m_Chunks rec' = Records.m_Chunks baked ∧
    Records.m_Chunks baked' = Records.m_Chunks rec) as
    (rec' & baked' & Hr' & Hb' & Hp1 & Hp2 & Hp3 & Hc1 & Hc2).
  { subst recs1. destruct (decide (this = Records.bakedCommands rec)) as [Heq|Hne].
    - rewrite <- Heq in *. simplify_eq. rewrite lookup_insert_eq.
      eexists _, _. repeat split; reflexivity.
    - rewrite lookup_insert_ne by done. rewrite !lookup_insert_eq.
      eexists _, _. repeat split; reflexivity. }
  clearbody recs1.
  remember (Records.cmdInfo rec) as p eqn:Hp.
  remember (Records.cmdInfo baked) as q eqn:Hq.
  assert (∀ (A : Type) (get : Records.CmdListRecordingInfo → A) set cis,
    Records.swap_cmdInfo_member get set this
      {| Records.records := recs1; Records.cmdInfos := cis |} =
    (m ← Records.swap_member get set p q cis;
     Some {| Records.records := recs1; Records.cmdInfos := m |})) as Hstep.
  { intros A get set cis.
    unfold Records.swap_cmdInfo_member, Records.live_cmdInfo, Records.baked_cmdInfo.
    simpl. rewrite Hr'. simpl. rewrite Hp1, Hb'. simpl. rewrite Hp2, Hp3. done. }
  rewrite Hstep, (swap_member_Some _ _ p q _ ci_live ci_baked) by done. simpl.
  destruct (decide (p = q)) as [Hpq|Hpq].
  - rewrite <- Hpq in *. clear Hpq.
    assert (ci_baked = ci_live) as -> by congruence.
    rewrite Hstep, (swap_member_Some _ _ p p _ _ _
      (lookup_insert_eq _ _ _) (lookup_insert_eq _ _ _)). simpl.
    rewrite Hstep, (swap_member_Some _ _ p p _ _ _
      (lookup_insert_eq _ _ _) (lookup_insert_eq _ _ _)). simpl.
    rewrite Hstep, (swap_member_Some _ _ p p _ _ _
      (lookup_insert_eq _ _ _) (lookup_insert_eq _ _ _)). simpl.
    rewrite ?decide_True by done.
    eexists _, rec', baked', _, _. split; [reflexivity|]. simpl.
    rewrite !lookup_insert_eq.
    split; [done|]. split; [done|]. split; [reflexivity|]. split; [reflexivity|].
    repeat split; done.
  - assert (∀ (x y : Records.CmdListRecordingInfo)
              (m : gmap Z Records.CmdListRecordingInfo),
      <[q := y]> (<[p := x]> m) !! p = Some x) as Hlp.
    { intros. rewrite lookup_insert_ne by done. apply lookup_insert_eq. }
    rewrite ?decide_False by done.
    rewrite Hstep, (swap_member_Some _ _ p q _ _ _ (Hlp _ _ _) (lookup_insert_eq _ _ _)).
    simpl. rewrite ?decide_False by done.
    rewrite Hstep, (swap_member_Some _ _ p q _ _ _ (Hlp _ _ _) (lookup_insert_eq _ _ _)).
    simpl. rewrite ?decide_False by done.
    rewrite Hstep, (swap_member_Some _ _ p q _ _ _ (Hlp _ _ _) (lookup_insert_eq _ _ _)).
    simpl. rewrite ?decide_False by done.
    eexists _, rec', baked', _, _. split; [reflexivity|]. simpl.
    rewrite Hlp, lookup_insert_eq.
    split; [done|]. split; [done|]. split; [reflexivity|]. split; [reflexivity|].
    repeat split; done.
Qed.

(** ** Insert *)

Section insert.
Import Records.

Variable G : gmap Z D3D12ResourceRecord.
Hypothesis G_closed : closed G.
Hypothesis G_acyclic : acyclic G.

Lemma same_graph_lookup m p rec :
  same_graph G m → G !! p = Some rec →
  ∃ r, m !! p = Some r ∧ Parents r = Parents rec ∧ m_Chunks r = m_Chunks rec.
Proof.
  intros Hm Hp. specialize (Hm p). rewrite Hp in Hm.
  destruct (m !! p) as [r|]; simpl in Hm; [|done].
  exists r. split; [done|]. by simplify_eq.
Qed.

Lemma same_graph_is_Some m p :
  same_graph G m → is_Some (m !! p) → is_Some (G !! p).
Proof.
  intros Hm [r Hr]. specialize (Hm p). rewrite Hr in Hm.
  destruct (G !! p); [done|]. done.
Qed.

Lemma same_graph_mark m p r :
  same_graph G m → m !! p = Some r →
  same_graph G (<[p := set_DataWritten true r]> m).
Proof.
  intros Hm Hr q. destruct (decide (p = q)) as [->|Hne].
  - rewrite lookup_insert_eq. rewrite <- Hm, Hr. done.
  - rewrite lookup_insert_ne by done. apply Hm.
Qed.

(** Counting: the records flagged so far are records of the graph. *)
Lemma flagged_bound (K : gset Z) (log : list Z) :
  NoDup log →
  (∀ p, p ∈ K → p ∉ log) →
  (∀ p, p ∈ K ∨ p ∈ log → is_Some (G !! p)) →
  (size K + length log ≤ size G)%nat.
Proof.
  intros Hnd Hdisj Hdom.
  rewrite <- (size_list_to_set (C:=gset Z) log Hnd).
  rewrite <- size_union.
  - rewrite <- (size_dom (D:=gset Z) G). apply subseteq_size.
    intros p Hp. apply elem_of_dom, Hdom.
    apply elem_of_union in Hp as [Hp|Hp]; [by left|].
    right. by apply elem_of_list_to_set in Hp.
  - intros p HK Hl. apply elem_of_list_to_set in Hl. by apply (Hdisj p).
Qed.

Lemma Inv_flagged_in_graph K st p :
  Inv G K st → p ∈ K ∨ p ∈ inserted st → is_Some (G !! p).
Proof.
  intros (Hg & _ & Hw & _) Hp. apply Hw in Hp as (r & Hr & _).
  eapply same_graph_is_Some; eauto.
Qed.

Lemma Inv_fresh_bound K st r :
  Inv G K st → is_Some (G !! r) → ¬ written (recs st) r →
  (S (size K + length (inserted st)) ≤ size G)%nat.
Proof.
  intros HI Hr Hnw.
  pose proof HI as (Hg & Hnd & Hw & Hdisj & _).
  assert (r ∉ K) as HrK by (intros ?; apply Hnw, Hw; by left).
  assert (r ∉ inserted st) as Hrl by (intros ?; apply Hnw, Hw; by right).
  pose proof (flagged_bound ({[r]} ∪ K) (inserted st) Hnd) as Hb.
  rewrite size_union, size_singleton in Hb by (by apply disjoint_singleton_l).
  apply Hb.
  - intros p Hp. apply elem_of_union in Hp as [Hp|Hp]; [|by apply Hdisj].
    apply elem_of_singleton in Hp as ->. done.
  - intros p [Hp|Hp].
    + apply elem_of_union in Hp as [Hp|Hp].
      * apply elem_of_singleton in Hp as ->. done.
      * eapply Inv_flagged_in_graph; eauto.
    + eapply Inv_flagged_in_graph; eauto.
Qed.

(** Flagging an unwritten record moves it into [K]. *)
Lemma Inv_mark K st r rec0 :
  Inv G K st → recs st !! r = Some rec0 → ¬ written (recs st) r →
  Inv G ({[r]} ∪ K)
      {| recs := <[r := set_DataWritten true rec0]> (recs st);
         recordlist := recordlist st; inserted := inserted st |}.
Proof.
  intros (Hg & Hnd & Hw & Hdisj & Hpf & Hrl) Hr Hnw.
  split; [by apply same_graph_mark|]. split; [done|]. simpl.
  split; [|split; [|done]].
  - intros p. unfold written. destruct (decide (r = p)) as [->|Hne].
    + rewrite lookup_insert_eq.
      split; [intros _; left; apply elem_of_union; left; by apply elem_of_singleton|].
      intros _. eexists. split; [done|]. done.
    + rewrite lookup_insert_ne by done.
      rewrite (Hw p), elem_of_union, elem_of_singleton.
      split; [tauto|]. intros [[?|?]|?]; [congruence|tauto|tauto].
  - intros p Hp. apply elem_of_union in Hp as [Hp|Hp]; [|by apply Hdisj].
    apply elem_of_singleton in Hp as ->.
    intros Hin. apply Hnw, Hw. by right.
Qed.

(** Flagging a record that is already written changes nothing. *)
Lemma Inv_mark_again K st r rec0 :
  Inv G K st → recs st !! r = Some rec0 → DataWritten rec0 = true →
  Inv G K {| recs := <[r := set_DataWritten true rec0]> (recs st);
           recordlist := recordlist st; inserted := inserted st |}.
Proof.
  intros HI Hr Hw.
  assert (set_DataWritten true rec0 = rec0) as ->.
  { destruct rec0; simpl in *; by subst. }
  rewrite insert_id by done. by destruct st.
Qed.

(** The chunks of a finished record go into the list. *)
Lemma Inv_finish K st r r2 :
  Inv G ({[r]} ∪ K) st → r ∉ K → recs st !! r = Some r2 →
  (∀ p, edge G r p → p ∈ inserted st) →
  Inv G K {| recs := recs st;
           recordlist := map_insert_range (recordlist st) (m_Chunks r2);
           inserted := inserted st ++ [r] |}.
Proof.
  intros (Hg & Hnd & Hw & Hdisj & Hpf & Hrl) HrK Hr Hparents.
  assert (r ∉ inserted st) as Hrl'.
  { apply Hdisj, elem_of_union. left. by apply elem_of_singleton. }
  split; [done|]. simpl. split; [|split; [|split; [|split]]].
  - apply NoDup_app. split; [done|]. split; [|apply NoDup_singleton].
    intros x Hx Hx'. apply list_elem_of_singleton in Hx' as ->. done.
  - intros p.
    rewrite (Hw p), elem_of_app, list_elem_of_singleton, elem_of_union,
      elem_of_singleton.
    tauto.
  - intros p Hp. rewrite elem_of_app, list_elem_of_singleton.
    intros [Hin| ->]; [|done]. eapply Hdisj; [|done].
    apply elem_of_union. by right.
  - intros j x p Hj He.
    apply lookup_snoc_Some in Hj as [[Hlt Hj]|[Hlen ->]].
    + destruct (Hpf j x p Hj He) as (i & Hi & Hip).
      exists i. split; [done|]. by apply lookup_app_l_Some.
    + subst j. apply Hparents, list_elem_of_lookup in He as [i Hi].
      exists i. split; [by eapply lookup_lt_Some|]. by apply lookup_app_l_Some.
  - unfold replay. rewrite foldl_snoc. fold (replay G (inserted st)).
    rewrite <- Hrl. f_equal. unfold chunks_of.
    destruct (same_graph_is_Some (recs st) r Hg) as [rec Hrec]; [by eexists|].
    rewrite Hrec.
    destruct (same_graph_lookup _ _ _ Hg Hrec) as (r' & Hr' & _ & Hc).
    by simplify_eq.
Qed.

(** The loop over the parents, for any recursive call [f] that does
    what [Insert] does on an unwritten record. *)
Lemma visit_parents_spec (K : gset Z) (n : nat)
    (f : Z → InsertState → option InsertState) :
  (∀ st p, Inv G K st → is_Some (G !! p) → ¬ written (recs st) p →
     (∀ k, k ∈ K → ¬ rtc (edge G) p k) →
     (size G ≤ n + size K + length (inserted st))%nat →
     ∃ st', f p st = Some st' ∧ Inv G K st' ∧ p ∈ inserted st' ∧
            inserted st `prefix_of` inserted st') →
  ∀ its st,
    Inv G K st →
    (∀ p, p ∈ its → is_Some (G !! p) ∧ ∀ k, k ∈ K → ¬ rtc (edge G) p k) →
    (size G ≤ n + size K + length (inserted st))%nat →
    ∃ st', visit_parents f its st = Some st' ∧ Inv G K st' ∧
           (∀ p, p ∈ its → p ∈ inserted st') ∧
           inserted st `prefix_of` inserted st'.
Proof.
  intros Hf. induction its as [|it its IH]; intros st HI Hits Hn; simpl.
  { exists st. split; [done|]. split; [done|]. split; [|done].
    intros p Hp. by apply elem_of_nil in Hp. }
  destruct (Hits it) as [[rec Hrec] Hpath]; [by left|].
  pose proof HI as (Hg & _ & Hw & _).
  destruct (same_graph_lookup _ _ _ Hg Hrec) as (pr & Hpr & _).
  rewrite Hpr. simpl.
  assert (∃ st1, (if DataWritten pr then Some st else f it st) = Some st1 ∧
                 Inv G K st1 ∧ it ∈ inserted st1 ∧
                 inserted st `prefix_of` inserted st1) as
    (st1 & -> & HI1 & Hit1 & Hpre1).
  { destruct (DataWritten pr) eqn:Hdw.
    - exists st. split; [done|]. split; [done|]. split; [|done].
      assert (written (recs st) it) as Hwr by (by exists pr).
      apply Hw in Hwr as [HK|Hin]; [|done].
      destruct (Hpath it HK). apply rtc_refl.
    - apply Hf; [done | by eexists | | done | done].
      intros (r & Hr & Hr'). congruence. }
  simpl.
  destruct (IH st1 HI1) as (st2 & Hrun & HI2 & Hall & Hpre2).
  { intros p Hp. apply Hits. by right. }
  { apply prefix_length in Hpre1. lia. }
  exists st2. split; [done|]. split; [done|]. split.
  - intros p Hp. apply elem_of_cons in Hp as [->|Hp]; [|by apply Hall].
    by eapply elem_of_prefix.
  - by etrans.
Qed.

(** [Insert] on a record that is not yet written: it returns, having
    inserted the record after all its ancestors that were missing. *)
Lemma Insert_fresh : ∀ fuel (K : gset Z) st r,
  Inv G K st → is_Some (G !! r) → ¬ written (recs st) r →
  (∀ k, k ∈ K → ¬ rtc (edge G) r k) →
  (size G ≤ fuel + size K + length (inserted st))%nat →
  ∃ st', Insert fuel r st = Some st' ∧ Inv G K st' ∧ r ∈ inserted st' ∧
         inserted st `prefix_of` inserted st'.
Proof.
  induction fuel as [|fuel IH]; intros K st r HI Hr Hnw Hpath Hn.
  { pose proof (Inv_fresh_bound K st r HI Hr Hnw). lia. }
  destruct Hr as [rec Hrec].
  pose proof HI as (Hg & _ & Hw & _).
  destruct (same_graph_lookup _ _ _ Hg Hrec) as (r0 & Hr0 & Hpar & _).
  assert (DataWritten r0 = false) as Hdw.
  { destruct (DataWritten r0) eqn:E; [|done]. destruct Hnw. by exists r0. }
  assert (r ∉ K) as HrK by (intros ?; apply Hnw, Hw; by left).
  cbn [Insert]. rewrite Hr0. simpl. rewrite Hdw.
  pose proof (Inv_mark K st r r0 HI Hr0 Hnw) as HI1.
  set (st1 := {| recs := <[r:=set_DataWritten true r0]> (recs st);
                 recordlist := recordlist st; inserted := inserted st |}) in *.
  assert (size ({[r]} ∪ K : gset Z) = S (size K)) as Hsize.
  { rewrite size_union, size_singleton by (by apply disjoint_singleton_l). done. }
  destruct (visit_parents_spec ({[r]} ∪ K) fuel (Insert fuel)) with
    (its := Parents r0) (st := st1) as (st2 & Hrun & HI2 & Hall & Hpre).
  - intros st' p HI' Hp Hnw' Hpath' Hn'. apply IH; done.
  - done.
  - intros p Hp.
    assert (edge G r p) as He by (exists rec; by rewrite <- Hpar).
    split; [by apply G_closed in He|].
    intros k Hk Hreach. apply elem_of_union in Hk as [Hk|Hk].
    + apply elem_of_singleton in Hk as ->.
      apply (G_acyclic r). eapply tc_rtc_r; [by apply tc_once|done].
    + apply (Hpath k Hk). by eapply rtc_l.
  - rewrite Hsize. simpl. lia.
  - rewrite Hrun. simpl.
    pose proof HI2 as (Hg2 & _).
    destruct (same_graph_lookup _ _ _ Hg2 Hrec) as (r2 & Hr2 & _).
    rewrite Hr2. simpl.
    eexists. split; [done|]. split; [|split].
    + apply Inv_finish; try done.
      intros p (rec' & Hrec' & Hp). apply Hall.
      rewrite Hpar. by simplify_eq.
    + simpl. apply elem_of_app. right. by apply list_elem_of_singleton.
    + simpl. by apply prefix_app_r.
Qed.

(** A call from outside, on any record of the graph, between calls. *)
Lemma Insert_outer fuel st r :
  Inv G ∅ st → is_Some (G !! r) → (size G ≤ fuel)%nat →
  ∃ st', Insert fuel r st = Some st' ∧ Inv G ∅ st' ∧ r ∈ inserted st' ∧
         inserted st `prefix_of` inserted st'.
Proof.
  intros HI Hr Hn.
  pose proof HI as (Hg & Hnd & Hw & Hdisj & Hpf & Hrl).
  destruct Hr as [rec Hrec].
  destruct (same_graph_lookup _ _ _ Hg Hrec) as (r0 & Hr0 & Hpar & _).
  destruct (DataWritten r0) eqn:Hdw.
  - (* already written: the parents are written too and nothing is added *)
    assert (r ∈ inserted st) as Hin.
    { destruct (Hw r) as [H1 _]. destruct H1 as [H1|H1]; [by exists r0| |done].
      by apply elem_of_empty in H1. }
    destruct fuel as [|fuel].
    { assert (size G ≠ 0%nat); [|lia].
      intros Hz. apply map_size_empty_inv in Hz. rewrite Hz in Hrec.
      by rewrite lookup_empty in Hrec. }
    cbn [Insert]. rewrite Hr0. simpl. rewrite Hdw.
    pose proof (Inv_mark_again ∅ st r r0 HI Hr0 Hdw) as HI1.
    set (st1 := {| recs := <[r:=set_DataWritten true r0]> (recs st);
                   recordlist := recordlist st; inserted := inserted st |}) in *.
    destruct (visit_parents_spec ∅ fuel (Insert fuel)) with
      (its := Parents r0) (st := st1) as (st2 & Hrun & HI2 & Hall & Hpre).
    + intros st' p HI' Hp Hnw' Hpath' Hn'. apply Insert_fresh; done.
    + done.
    + intros p Hp.
      assert (edge G r p) as He by (exists rec; by rewrite <- Hpar).
      split; [by apply G_closed in He|].
      intros k Hk. by apply elem_of_empty in Hk.
    + simpl. apply list_elem_of_lookup in Hin as [i Hi].
      apply lookup_lt_Some in Hi. lia.
    + rewrite Hrun. simpl.
      pose proof HI2 as (Hg2 & _).
      destruct (same_graph_lookup _ _ _ Hg2 Hrec) as (r2 & Hr2 & _).
      rewrite Hr2. simpl.
      exists st2. split; [done|]. split; [done|]. split; [|done].
      by eapply elem_of_prefix.
  - apply Insert_fresh; [done | by eexists | | | lia].
    + intros (r' & Hr' & Hw'). congruence.
    + intros k Hk. by apply elem_of_empty in Hk.
Qed.

Lemma InsertAll_spec fuel roots : ∀ st,
  Inv G ∅ st → (∀ r, r ∈ roots → is_Some (G !! r)) → (size G ≤ fuel)%nat →
  ∃ st', InsertAll fuel roots st = Some st' ∧ Inv G ∅ st' ∧
         (∀ r, r ∈ roots → r ∈ inserted st') ∧
         inserted st `prefix_of` inserted st'.
Proof.
  induction roots as [|r roots IH]; intros st HI Hroots Hn; simpl.
  { exists st. split; [done|]. split; [done|]. split; [|done].
    intros r Hr. by apply elem_of_nil in Hr. }
  destruct (Insert_outer fuel st r HI) as (st1 & -> & HI1 & Hr1 & Hpre1);
    [apply Hroots; by left | done |].
  simpl.
  destruct (IH st1 HI1) as (st2 & Hrun & HI2 & Hall & Hpre2);
    [intros x Hx; apply Hroots; by right | done |].
  exists st2. split; [done|]. split; [done|]. split.
  - intros x Hx. apply elem_of_cons in Hx as [->|Hx]; [|by apply Hall].
    by eapply elem_of_prefix.
  - by etrans.
Qed.

End insert.

Lemma Inv_initial (G : gmap Z Records.D3D12ResourceRecord) :
  Records.unwritten G → Records.Inv G ∅ (Records.initial G).
Proof.
  intros Hu. split; [done|]. simpl. split; [apply NoDup_nil_2|].
  split; [|split; [|split]].
  - intros p. split.
    + intros (r & Hr & Hw). specialize (Hu p r Hr). congruence.
    + intros [H|H]; [by apply elem_of_empty in H | by apply elem_of_nil in H].
  - intros p H. by apply elem_of_empty in H.
  - intros j r p Hj. by rewrite lookup_nil in Hj.
  - done.
Qed.

(** C5. On an acyclic parent graph in which no record is written yet,
    every sequence of [Insert] calls returns; in the history of its
    [recordlist.insert] calls no record occurs twice, every record that
    was passed to [Insert] occurs, the parents of every record occur
    before the record itself, and the resulting [recordlist] is what those
    calls, in that order, put into the empty map. *)
Theorem Insert_idempotent_ordered (G : gmap Z Records.D3D12ResourceRecord)
    (roots : list Z) :
  Records.closed G → Records.acyclic G → Records.unwritten G →
  (∀ r, r ∈ roots → is_Some (G !! r)) →
  ∃ st', Records.InsertAll (size G) roots (Records.initial G) = Some st' ∧
         NoDup (Records.inserted st') ∧
         (∀ r, r ∈ roots → r ∈ Records.inserted st') ∧
         Records.parents_first G (Records.inserted st') ∧
         Records.recordlist st' = Records.replay G (Records.inserted st').
Proof.
  intros Hc Ha Hu Hroots.
  destruct (InsertAll_spec G Hc Ha (size G) roots (Records.initial G))
    as (st' & Hrun & (_ & Hnd & _ & _ & Hpf & Hrl) & Hall & _);
    [by apply Inv_initial | done | done |].
  exists st'. done.
Qed.

(** A graph with a ranking that every parent edge lowers has no cycle. *)
Lemma acyclic_of_rank (G : gmap Z Records.D3D12ResourceRecord) (rank : Z → nat) :
  (∀ r p, Records.edge G r p → (rank p < rank r)%nat) → Records.acyclic G.
Proof.
  intros Hrank.
  assert (∀ r p, tc (Records.edge G) r p → (rank p < rank r)%nat) as Htc.
  { induction 1 as [r p He|r p q He _ IH].
    - by apply Hrank.
    - apply Hrank in He. lia. }
  intros r Hr. apply Htc in Hr. lia.
Qed.

Lemma diamond_lookup r rec :
  diamond !! r = Some rec →
  (r = 4 ∧ Records.Parents rec = [2; 3]) ∨ (r = 3 ∧ Records.Parents rec = [1]) ∨
  (r = 2 ∧ Records.Parents rec = [1]) ∨ (r = 1 ∧ Records.Parents rec = []).
Proof.
  unfold diamond. intros H.
  apply lookup_insert_Some in H as [[<- <-]|[_ H]]; [by left|].
  apply lookup_insert_Some in H as [[<- <-]|[_ H]]; [by right; left|].
  apply lookup_insert_Some in H as [[<- <-]|[_ H]]; [by right; right; left|].
  apply lookup_insert_Some in H as [[<- <-]|[_ H]]; [by right; right; right|].
  by rewrite lookup_empty in H.
Qed.

Lemma diamond_edge r p :
  Records.edge diamond r p →
  (r = 4 ∧ p = 2) ∨ (r = 4 ∧ p = 3) ∨ (r = 3 ∧ p = 1) ∨ (r = 2 ∧ p = 1).
Proof.
  intros (rec & Hrec & Hp).
  apply diamond_lookup in Hrec as [[-> E]|[[-> E]|[[-> E]|[-> E]]]];
    rewrite E in Hp; repeat (apply elem_of_cons in Hp as [->|Hp]);
    try (by apply elem_of_nil in Hp); tauto.
Qed.

Lemma diamond_closed : Records.closed diamond.
Proof.
  intros r p He.
  apply diamond_edge in He as [[-> ->]|[[-> ->]|[[-> ->]|[-> ->]]]];
    eexists; reflexivity.
Qed.

Lemma diamond_acyclic : Records.acyclic diamond.
Proof.
  apply (acyclic_of_rank diamond Z.to_nat). intros r p He.
  apply diamond_edge in He as [[-> ->]|[[-> ->]|[[-> ->]|[-> ->]]]]; lia.
Qed.

Lemma diamond_unwritten : Records.unwritten diamond.
Proof.
  intros r rec H. unfold diamond in H.
  repeat (apply lookup_insert_Some in H as [[<- <-]|[_ H]]; [done|]).
  by rewrite lookup_empty in H.
Qed.

Example Insert_diamond :
  Records.inserted <$> Records.InsertAll 4 [4; 2] (Records.initial diamond)
  = Some [1; 2; 3; 4].
Proof. reflexivity. Qed.

Example Insert_diamond_out_of_fuel :
  Records.Insert 2 4 (Records.initial diamond) = None.
Proof. reflexivity. Qed.

Lemma Insert_idempotent_ordered_witness :
  Records.closed diamond ∧ Records.acyclic diamond ∧ Records.unwritten diamond ∧
  (∀ r, r ∈ [4; 2] → is_Some (diamond !! r)) ∧
  ∃ st', Records.InsertAll (size diamond) [4; 2] (Records.initial diamond) = Some st' ∧
         NoDup (Records.inserted st') ∧
         (∀ r, r ∈ [4; 2] → r ∈ Records.inserted st') ∧
         Records.parents_first diamond (Records.inserted st') ∧
         Records.recordlist st' = Records.replay diamond (Records.inserted st').
Proof.
  assert (∀ r, r ∈ [4; 2] → is_Some (diamond !! r)) as Hroots.
  { intros r Hr.
    apply elem_of_cons in Hr as [->|Hr]; [eexists; reflexivity|].
    apply elem_of_cons in Hr as [->|Hr]; [eexists; reflexivity|].
    by apply elem_of_nil in Hr. }
  split; [exact diamond_closed|]. split; [exact diamond_acyclic|].
  split; [exact diamond_unwritten|]. split; [exact Hroots|].
  apply (Insert_idempotent_ordered diamond [4; 2]
           diamond_closed diamond_acyclic diamond_unwritten Hroots).
Defined.

Lemma Bake_exchanges_witness :
  ∃ rec baked ci_live ci_baked,
    Records.records bake_store !! 100 = Some rec ∧
    Records.records bake_store !! Records.bakedCommands rec = Some baked ∧
    Records.cmdInfos bake_store !! Records.cmdInfo rec = Some ci_live ∧
    Records.cmdInfos bake_store !! Records.cmdInfo baked = Some ci_baked ∧
    ∃ s' rec' ci_live' ci_baked',
      Records.Bake 100 bake_store = Some s' ∧
      Records.records s' !! 100 = Some rec' ∧
      Records.cmdInfos s' !! 300 = Some ci_live' ∧
      Records.cmdInfos s' !! 400 = Some ci_baked' ∧
      Records.m_Chunks rec' = ∅ ∧
      Records.barriers ci_live' = [] ∧
      Records.barriers ci_baked' = [5; 6] ∧
      Records.boundDescs ci_baked' = [8; 8].
Proof.
  eexists _, _, _, _.
  split; [reflexivity|]. split; [reflexivity|].
  split; [reflexivity|]. split; [reflexivity|].
  edestruct (Bake_exchanges 100 bake_store) as
    (s' & rec' & baked' & cl & cb & Hb & Hr & _ & Hl & Hq & _ & _ & _ & Hc & _ &
     Hb1 & _ & _ & _ & Hb2 & _ & Hb3 & _);
    [reflexivity | reflexivity | reflexivity | reflexivity |].
  exists s', rec', cl, cb.
  split; [exact Hb|]. split; [exact Hr|]. split; [exact Hl|]. split; [exact Hq|].
  split; [exact Hc|]. split; [exact Hb1|]. split; [exact Hb2|]. exact Hb3.
Defined.

(** * Further properties *)

(** ** The address range tracker, continued *)

Section tracker_more.
Import Tracker.
Implicit Types (l : list GPUAddressRange) (r : GPUAddressRange).

Lemma contains_dec_list l a :
  (∃ x, x ∈ l ∧ contains x a) ∨ (∀ x, x ∈ l → ¬ contains x a).
Proof.
  induction l as [|y l IH].
  { right. intros x Hx. by apply elem_of_nil in Hx. }
  destruct (decide (start y ≤ a < end_ y)) as [Hy|Hy].
  { left. exists y. split; [by left|done]. }
  destruct IH as [(x & Hx & Hc)|Hno].
  - left. exists x. split; [by right|done].
  - right. intros x Hx. apply elem_of_cons in Hx as [->|Hx]; [done|by apply Hno].
Qed.

Lemma range_wf_overlaps_self r : range_wf r → overlaps r r.
Proof. intros (? & ? & ?). exists (start r). unfold contains. lia. Qed.

Lemma vector_erase_insert l k r :
  (k ≤ length l)%nat → vector_erase k (vector_insert k r l) = l.
Proof.
  intros Hk. unfold vector_erase, vector_insert.
  rewrite take_app_length' by (by rewrite length_take_le).
  replace (take k l ++ r :: drop k l) with ((take k l ++ [r]) ++ drop k l)
    by (by rewrite <- app_assoc).
  rewrite drop_app_length'.
  - apply take_drop.
  - rewrite length_app, length_take_le by done. simpl. lia.
Qed.

Lemma elem_of_vector_erase l k y :
  (k < length l)%nat →
  y ∈ vector_erase k l ↔ ∃ j, j ≠ k ∧ l !! j = Some y.
Proof.
  intros Hk. rewrite list_elem_of_lookup. split.
  - intros [i Hi]. rewrite lookup_vector_erase in Hi by done.
    case_decide; [exists i | exists (S i)]; (split; [lia|done]).
  - intros (j & Hj & Hy).
    destruct (decide (j < k)%nat).
    + exists j. rewrite lookup_vector_erase by done. by rewrite decide_True.
    + exists (j - 1)%nat. rewrite lookup_vector_erase by done.
      rewrite decide_False by lia. rewrite <- Hy. f_equal. lia.
Qed.

(** Two lookups agree when the two vectors are well kept and hold the
    address in the same ranges. *)
Lemma GetResIDFromAddr_ext l1 l2 a :
  tracker_ok l1 → tracker_ok l2 →
  (∀ x, contains x a → (x ∈ l1 ↔ x ∈ l2)) →
  GetResIDFromAddr l1 a = GetResIDFromAddr l2 a.
Proof.
  intros H1 H2 Hsame.
  destruct (contains_dec_list l1 a) as [(x & Hx & Hc)|Hno].
  - rewrite (GetResIDFromAddr_hit l1 x a) by done.
    rewrite (GetResIDFromAddr_hit l2 x a); [done|done| |done].
    by apply Hsame.
  - rewrite (GetResIDFromAddr_miss l1 a) by done.
    rewrite (GetResIDFromAddr_miss l2 a); [done|].
    intros x Hx Hc. apply (Hno x); [|done]. by apply Hsame.
Qed.

Lemma AddTo_lookup_new l r a :
  tracker_ok l → range_wf r → (∀ x, x ∈ l → ¬ overlaps r x) →
  contains r a → GetResIDFromAddr (AddTo l r) a = (id r, a - start r).
Proof.
  intros Hok Hr Hno Hc.
  apply GetResIDFromAddr_hit; [by apply tracker_ok_AddTo| |done].
  apply AddTo_elem_of. by left.
Qed.

Lemma AddTo_lookup_other l r a :
  tracker_ok l → range_wf r → (∀ x, x ∈ l → ¬ overlaps r x) →
  ¬ contains r a → GetResIDFromAddr (AddTo l r) a = GetResIDFromAddr l a.
Proof.
  intros Hok Hr Hno Hc.
  apply GetResIDFromAddr_ext; [by apply tracker_ok_AddTo|done|].
  intros x Hx. rewrite AddTo_elem_of. split; [|by right].
  intros [->|?]; [done|done].
Qed.

Lemma RemoveFrom_lookup l x a :
  tracker_ok l → x ∈ l → contains x a →
  ∃ l', RemoveFrom l a = Some l' ∧ tracker_ok l' ∧
        (∀ y, y ∈ l' ↔ y ∈ l ∧ y ≠ x) ∧
        (∀ b, contains x b → GetResIDFromAddr l' b = (ResourceId_null, 0)) ∧
        (∀ b, ¬ contains x b → GetResIDFromAddr l' b = GetResIDFromAddr l b).
Proof.
  intros Hok Hx Hc.
  destruct (tracker_ok_RemoveFrom l x a Hok Hx Hc) as (k & Hk & _ & Hrm & Hok').
  pose proof (lookup_lt_Some _ _ _ Hk) as Hlt.
  pose proof Hok as (_ & Hd & Hwf).
  assert (∀ y, y ∈ vector_erase k l ↔ y ∈ l ∧ y ≠ x) as Hmem.
  { intros y. rewrite elem_of_vector_erase by done. split.
    - intros (j & Hj & Hy). split; [by eapply list_elem_of_lookup_2|].
      intros ->. apply (Hd j k x x Hj Hy Hk).
      apply range_wf_overlaps_self.
      rewrite Forall_forall in Hwf. by apply Hwf.
    - intros [Hy Hne]. apply list_elem_of_lookup in Hy as [j Hj].
      exists j. split; [|done]. intros ->. congruence. }
  exists (vector_erase k l).
  split; [done|]. split; [done|]. split; [done|]. split.
  - intros b Hb. apply GetResIDFromAddr_miss.
    intros y Hy Hyb. apply Hmem in Hy as [Hy Hne].
    apply list_elem_of_lookup in Hy as [j Hj].
    assert (j ≠ k) as Hjk by (intros ->; congruence).
    apply (Hd j k y x Hjk Hj Hk). by exists b.
  - intros b Hb. apply GetResIDFromAddr_ext; [done|done|].
    intros y Hy. rewrite Hmem. split; [tauto|].
    intros Hin. split; [done|]. by intros ->.
Qed.

Lemma AddTo_RemoveFrom l r a :
  tracker_ok l → range_wf r → (∀ x, x ∈ l → ¬ overlaps r x) →
  contains r a → RemoveFrom (AddTo l r) a = Some l.
Proof.
  intros Hok Hr Hno Hc.
  pose proof (tracker_ok_AddTo l r Hok Hr Hno) as Hok'.
  assert (r ∈ AddTo l r) as Hin by (apply AddTo_elem_of; by left).
  pose proof (lower_bound_finds _ r a Hok' Hin Hc) as Hfind.
  pose proof (lower_bound_le l (start r)) as Hk.
  assert (r ∉ l) as Hrl.
  { intros Hrl. apply (Hno r Hrl). by apply range_wf_overlaps_self. }
  unfold RemoveFrom. rewrite Hfind.
  unfold AddTo in Hfind |- *.
  set (k := lower_bound l (start r)) in *.
  set (k' := lower_bound (vector_insert k r l) a) in *.
  rewrite lookup_vector_insert in Hfind by done.
  assert (k' = k) as ->.
  { repeat case_decide; [|done|];
      destruct Hrl; eapply list_elem_of_lookup_2, Hfind. }
  by rewrite vector_erase_insert.
Qed.

Lemma RemoveFrom_None l a :
  sorted_descending l →
  RemoveFrom l a = None ↔ ∀ x, x ∈ l → a < start x.
Proof.
  intros Hs.
  destruct (lower_bound_spec l a Hs) as (Hk & Hlo & Hhi).
  unfold RemoveFrom.
  destruct (l !! lower_bound l a) as [e|] eqn:He.
  - split; [done|]. intros Hall.
    assert (start e ≤ a) by (eapply Hhi; [|exact He]; lia).
    assert (a < start e) by (eapply Hall, list_elem_of_lookup_2, He). lia.
  - split; [|done]. intros _ x Hx.
    apply list_elem_of_lookup in Hx as [i Hi].
    apply lookup_ge_None in He.
    eapply Hlo; [|exact Hi]. apply lookup_lt_Some in Hi. lia.
Qed.

Lemma RemoveFrom_Some l a l' :
  sorted_descending l → RemoveFrom l a = Some l' →
  ∃ k x, l !! k = Some x ∧ l' = vector_erase k l ∧
         start x ≤ a ∧ (∀ y, y ∈ l → start y ≤ a → start y ≤ start x).
Proof.
  intros Hs.
  destruct (lower_bound_spec l a Hs) as (Hk & Hlo & Hhi).
  unfold RemoveFrom.
  destruct (l !! lower_bound l a) as [e|] eqn:He; [|done].
  intros [= <-]. exists (lower_bound l a), e.
  split; [done|]. split; [done|]. split.
  - eapply Hhi; [|exact He]. lia.
  - intros y Hy Hya. apply list_elem_of_lookup in Hy as [j Hj].
    destruct (decide (j < lower_bound l a)%nat) as [Hlt|Hge].
    + assert (a < start y) by (eapply Hlo; [|exact Hj]; lia). lia.
    + destruct (decide (j = lower_bound l a)) as [->|Hne]; [by simplify_eq|].
      eapply (Hs (lower_bound l a) j); [|exact He|exact Hj]. lia.
Qed.

Lemma RemoveFrom_assert_true l a :
  RemoveFrom_assert l a = true → ∃ x, x ∈ l ∧ contains x a.
Proof.
  unfold RemoveFrom_assert.
  destruct (l !! lower_bound l a) as [e|] eqn:He; [|done].
  rewrite andb_true_iff, !bool_decide_eq_true. intros [H1 H2].
  exists e. split; [eapply list_elem_of_lookup_2, He|]. unfold contains. lia.
Qed.

Lemma GetResIDFromAddr_cases l a :
  GetResIDFromAddr l a = (ResourceId_null, 0) ∨
  (a ≠ 0 ∧ ∃ x, x ∈ l ∧ contains x a ∧
     GetResIDFromAddr l a = (id x, wrap64 (a - start x))).
Proof.
  unfold GetResIDFromAddr.
  case_decide; [by left|].
  destruct (l !! lower_bound l a) as [q|] eqn:Hq; [|by left].
  case_decide; [by left|]. right. split; [done|].
  exists q. split; [eapply list_elem_of_lookup_2, Hq|].
  split; [unfold contains; lia|done].
Qed.

End tracker_more.

Lemma sample_tracker_ok : Tracker.tracker_ok [range_high; range_low].
Proof.
  split; [|split].
  - unfold Tracker.sorted_descending. by_positions.
  - unfold Tracker.pairwise_disjoint. by_positions.
  - repeat constructor; simpl; lia.
Qed.

Lemma sample_elem_of (x : Tracker.GPUAddressRange) :
  x ∈ [range_high; range_low] → x = range_high ∨ x = range_low.
Proof.
  intros Hx. apply elem_of_cons in Hx as [->|Hx]; [by left|].
  apply elem_of_cons in Hx as [->|Hx]; [by right|].
  by apply elem_of_nil in Hx.
Qed.

Lemma range_new_wf : Tracker.range_wf range_new.
Proof. unfold Tracker.range_wf. simpl. lia. Qed.

Lemma range_new_fresh (x : Tracker.GPUAddressRange) :
  x ∈ [range_high; range_low] → ¬ Tracker.overlaps range_new x.
Proof.
  intros Hx (a & Ha & Hb).
  apply sample_elem_of in Hx as [->| ->];
    unfold Tracker.contains in *; simpl in *; lia.
Qed.

(** X1. On a vector in descending order of start, the binary search of
    the tracker returns the position of the first range that starts at
    or below the value: every range before it starts above the value,
    every range from it on starts at or below the value. *)
Theorem lower_bound_partition_point (l : list Tracker.GPUAddressRange) (value : Z) :
  Tracker.sorted_descending l →
  (Tracker.lower_bound l value ≤ length l)%nat ∧
  (∀ i x, (i < Tracker.lower_bound l value)%nat → l !! i = Some x →
     value < Tracker.start x) ∧
  (∀ i x, (Tracker.lower_bound l value ≤ i)%nat → l !! i = Some x →
     Tracker.start x ≤ value).
Proof. intros Hs. exact (lower_bound_spec l value Hs). Qed.

Lemma lower_bound_partition_point_witness :
  Tracker.sorted_descending [range_high; range_low] ∧
  (Tracker.lower_bound [range_high; range_low] 25 ≤ 2)%nat ∧
  (∀ i x, (i < Tracker.lower_bound [range_high; range_low] 25)%nat →
     [range_high; range_low] !! i = Some x → 25 < Tracker.start x) ∧
  (∀ i x, (Tracker.lower_bound [range_high; range_low] 25 ≤ i)%nat →
     [range_high; range_low] !! i = Some x → Tracker.start x ≤ 25).
Proof.
  split; [apply sample_tracker_ok|].
  apply (lower_bound_partition_point [range_high; range_low] 25).
  apply sample_tracker_ok.
Defined.

(** X2. Whatever the vector holds, [GetResIDFromAddr] either reports
    nothing (zero id, offset 0) or reports a registered range that holds
    the address, with the distance of the address from its start; it
    reports nothing for address 0. *)
Theorem GetResIDFromAddr_never_wrong (l : list Tracker.GPUAddressRange) (a : Z) :
  Tracker.GetResIDFromAddr l a = (ResourceId_null, 0) ∨
  (a ≠ 0 ∧ ∃ x, x ∈ l ∧ Tracker.contains x a ∧
     Tracker.GetResIDFromAddr l a
     = (Tracker.id x, wrap64 (a - Tracker.start x))).
Proof. apply GetResIDFromAddr_cases. Qed.

(** X3. [AddTo] keeps every registered range and adds the new one once:
    the vector after the call is a rearrangement of the new range put in
    front of the old vector, whatever the old vector and the assertion. *)
Theorem AddTo_permutation (l : list Tracker.GPUAddressRange) (r : Tracker.GPUAddressRange) :
  Tracker.AddTo l r ≡ₚ r :: l ∧ length (Tracker.AddTo l r) = S (length l).
Proof.
  assert (Tracker.AddTo l r ≡ₚ r :: l) as Hp.
  { unfold Tracker.AddTo, Tracker.vector_insert.
    rewrite <- Permutation_middle. by rewrite take_drop. }
  split; [done|]. by rewrite Hp.
Qed.

(** X4. After a new non-empty range that overlaps no registered range
    is added to a well-kept tracker, the tracker is still well kept,
    every address of the new range resolves to it, and every other
    address resolves as before the call. *)
Theorem AddTo_then_lookup (l : list Tracker.GPUAddressRange) (r : Tracker.GPUAddressRange) :
  Tracker.tracker_ok l → Tracker.range_wf r →
  (∀ x, x ∈ l → ¬ Tracker.overlaps r x) →
  Tracker.tracker_ok (Tracker.AddTo l r) ∧
  (∀ a, Tracker.contains r a →
     Tracker.GetResIDFromAddr (Tracker.AddTo l r) a
     = (Tracker.id r, a - Tracker.start r)) ∧
  (∀ a, ¬ Tracker.contains r a →
     Tracker.GetResIDFromAddr (Tracker.AddTo l r) a
     = Tracker.GetResIDFromAddr l a).
Proof.
  intros Hok Hr Hno. split; [by apply tracker_ok_AddTo|]. split; intros a Ha.
  - by apply AddTo_lookup_new.
  - by apply AddTo_lookup_other.
Qed.

Lemma AddTo_then_lookup_witness :
  Tracker.tracker_ok [range_high; range_low] ∧ Tracker.range_wf range_new ∧
  (∀ x, x ∈ [range_high; range_low] → ¬ Tracker.overlaps range_new x) ∧
  Tracker.GetResIDFromAddr (Tracker.AddTo [range_high; range_low] range_new) 55
    = (3, 55 - 50) ∧
  Tracker.GetResIDFromAddr (Tracker.AddTo [range_high; range_low] range_new) 15
    = Tracker.GetResIDFromAddr [range_high; range_low] 15.
Proof.
  split; [exact sample_tracker_ok|]. split; [exact range_new_wf|].
  split; [exact range_new_fresh|].
  destruct (AddTo_then_lookup [range_high; range_low] range_new
              sample_tracker_ok range_new_wf range_new_fresh) as (_ & Hnew & Hother).
  split.
  - apply (Hnew 55). unfold Tracker.contains. simpl. lia.
  - apply (Hother 15). unfold Tracker.contains. simpl. lia.
Defined.

(** X5. In a well-kept tracker, [RemoveFrom] with any address inside a
    registered range returns the vector without exactly that range, still
    well kept; afterwards the addresses of the removed range resolve to
    nothing and every other address resolves as before. *)
Theorem RemoveFrom_then_lookup (l : list Tracker.GPUAddressRange)
    (x : Tracker.GPUAddressRange) (a : Z) :
  Tracker.tracker_ok l → x ∈ l → Tracker.contains x a →
  ∃ l', Tracker.RemoveFrom l a = Some l' ∧ Tracker.tracker_ok l' ∧
        (∀ y, y ∈ l' ↔ y ∈ l ∧ y ≠ x) ∧
        (∀ b, Tracker.contains x b →
           Tracker.GetResIDFromAddr l' b = (ResourceId_null, 0)) ∧
        (∀ b, ¬ Tracker.contains x b →
           Tracker.GetResIDFromAddr l' b = Tracker.GetResIDFromAddr l b).
Proof. apply RemoveFrom_lookup. Qed.

Lemma RemoveFrom_then_lookup_witness :
  Tracker.tracker_ok [range_high; range_low] ∧
  range_low ∈ [range_high; range_low] ∧ Tracker.contains range_low 17 ∧
  ∃ l', Tracker.RemoveFrom [range_high; range_low] 17 = Some l' ∧
        Tracker.GetResIDFromAddr l' 12 = (ResourceId_null, 0).
Proof.
  assert (range_low ∈ [range_high; range_low]) as Hin.
  { apply elem_of_cons. right. apply elem_of_cons. by left. }
  assert (Tracker.contains range_low 17) as Hc.
  { unfold Tracker.contains. simpl. lia. }
  split; [exact sample_tracker_ok|]. split; [exact Hin|]. split; [exact Hc|].
  destruct (RemoveFrom_then_lookup [range_high; range_low] range_low 17
              sample_tracker_ok Hin Hc) as (l' & Hrm & _ & _ & Hgone & _).
  exists l'. split; [exact Hrm|].
  apply Hgone. unfold Tracker.contains. simpl. lia.
Defined.

(** X6. Adding a range to a well-kept tracker and then removing it by
    any of its addresses gives back the vector as it was before the two
    calls. *)
Theorem AddTo_then_RemoveFrom (l : list Tracker.GPUAddressRange)
    (r : Tracker.GPUAddressRange) (a : Z) :
  Tracker.tracker_ok l → Tracker.range_wf r →
  (∀ x, x ∈ l → ¬ Tracker.overlaps r x) →
  Tracker.contains r a →
  Tracker.RemoveFrom (Tracker.AddTo l r) a = Some l.
Proof. apply AddTo_RemoveFrom. Qed.

Lemma AddTo_then_RemoveFrom_witness :
  Tracker.tracker_ok [range_high; range_low] ∧ Tracker.range_wf range_new ∧
  (∀ x, x ∈ [range_high; range_low] → ¬ Tracker.overlaps range_new x) ∧
  Tracker.contains range_new 59 ∧
  Tracker.RemoveFrom (Tracker.AddTo [range_high; range_low] range_new) 59
    = Some [range_high; range_low].
Proof.
  assert (Tracker.contains range_new 59) as Hc.
  { unfold Tracker.contains. simpl. lia. }
  split; [exact sample_tracker_ok|]. split; [exact range_new_wf|].
  split; [exact range_new_fresh|]. split; [exact Hc|].
  exact (AddTo_then_RemoveFrom [range_high; range_low] range_new 59
           sample_tracker_ok range_new_wf range_new_fresh Hc).
Defined.

(** X7. On a vector in descending order of start, [RemoveFrom] has no
    range to erase exactly when every registered range starts above the
    address (so always on the empty tracker); otherwise it erases the
    range with the greatest start at or below the address, whether or not
    that range holds the address. *)
Theorem RemoveFrom_nearest_below (l : list Tracker.GPUAddressRange) (a : Z) :
  Tracker.sorted_descending l →
  (Tracker.RemoveFrom l a = None ↔ ∀ x, x ∈ l → a < Tracker.start x) ∧
  (∀ l', Tracker.RemoveFrom l a = Some l' →
     ∃ k x, l !! k = Some x ∧ l' = Tracker.vector_erase k l ∧
            Tracker.start x ≤ a ∧
            (∀ y, y ∈ l → Tracker.start y ≤ a → Tracker.start y ≤ Tracker.start x)).
Proof.
  intros Hs. split.
  - by apply RemoveFrom_None.
  - intros l'. by apply RemoveFrom_Some.
Qed.

Lemma RemoveFrom_nearest_below_witness :
  Tracker.sorted_descending [range_high; range_low] ∧
  Tracker.RemoveFrom [range_high; range_low] 5 = None ∧
  ∃ k x, [range_high; range_low] !! k = Some x ∧
         [range_high] = Tracker.vector_erase k [range_high; range_low] ∧
         Tracker.start x ≤ 25.
Proof.
  assert (Tracker.sorted_descending [range_high; range_low]) as Hs
    by apply sample_tracker_ok.
  split; [exact Hs|].
  destruct (RemoveFrom_nearest_below [range_high; range_low] 5 Hs) as [Hnone _].
  destruct (RemoveFrom_nearest_below [range_high; range_low] 25 Hs) as [_ Hsome].
  split.
  - apply Hnone. intros x Hx.
    apply sample_elem_of in Hx as [->| ->]; simpl; lia.
  - destruct (Hsome [range_high] eq_refl) as (k & x & Hk & He & Hx & _).
    exists k, x. split; [exact Hk|]. split; [exact He|exact Hx].
Defined.

(** X8. In a well-kept tracker the assertion of [RemoveFrom] holds
    exactly when some registered range holds the address. *)
Theorem RemoveFrom_assert_exact (l : list Tracker.GPUAddressRange) (a : Z) :
  Tracker.tracker_ok l →
  Tracker.RemoveFrom_assert l a = true ↔ ∃ x, x ∈ l ∧ Tracker.contains x a.
Proof.
  intros Hok. split.
  - apply RemoveFrom_assert_true.
  - intros (x & Hx & Hc).
    by destruct (tracker_ok_RemoveFrom l x a Hok Hx Hc) as (k & _ & Ha & _).
Qed.

Lemma RemoveFrom_assert_exact_witness :
  Tracker.tracker_ok [range_high; range_low] ∧
  (Tracker.RemoveFrom_assert [range_high; range_low] 25 = true ↔
   ∃ x, x ∈ [range_high; range_low] ∧ Tracker.contains x 25).
Proof.
  split; [exact sample_tracker_ok|].
  exact (RemoveFrom_assert_exact [range_high; range_low] 25 sample_tracker_ok).
Defined.

(** ** Insert, continued *)

Section insert_more.
Import Records.
Implicit Types (m : gmap Z D3D12ResourceRecord) (st : InsertState).

Lemma flags_only_refl m : flags_only m m.
Proof. intros p. by left. Qed.

Lemma flags_only_trans m1 m2 m3 :
  flags_only m1 m2 → flags_only m2 m3 → flags_only m1 m3.
Proof.
  intros H12 H23 p. destruct (H12 p) as [E12|(r & Hr & Hr')].
  - rewrite <- E12. apply H23.
  - destruct (H23 p) as [E23|(r' & Hr2 & Hr3)].
    + right. exists r. split; [done|]. by rewrite E23.
    + right. exists r. split; [done|]. rewrite Hr3.
      rewrite Hr' in Hr2. by simplify_eq.
Qed.

Lemma flags_only_mark m r r0 :
  m !! r = Some r0 → flags_only m (<[r := set_DataWritten true r0]> m).
Proof.
  intros Hr p. destruct (decide (r = p)) as [->|Hne].
  - right. exists r0. split; [done|]. apply lookup_insert_eq.
  - left. by apply lookup_insert_ne.
Qed.

Lemma flags_only_is_Some m m' p :
  flags_only m m' → is_Some (m' !! p) ↔ is_Some (m !! p).
Proof.
  intros H. destruct (H p) as [E|(r & Hr & Hr')].
  - by rewrite E.
  - rewrite Hr, Hr'. split; by eexists.
Qed.

Lemma flags_only_edge m m' r p :
  flags_only m m' → edge m' r p ↔ edge m r p.
Proof.
  intros H. unfold edge. destruct (H r) as [E|(r0 & Hr & Hr')].
  - by rewrite E.
  - rewrite Hr, Hr'. split; intros (rec & Hrec & Hp); simplify_eq; eauto.
Qed.

Lemma flags_only_rtc m m' r x :
  flags_only m m' → rtc (edge m') r x → rtc (edge m) r x.
Proof.
  intros H. induction 1 as [|a b c Hab _ IH]; [apply rtc_refl|].
  eapply rtc_l; [|exact IH]. by apply (flags_only_edge m m').
Qed.

Lemma flags_only_written m m' p :
  flags_only m m' → written m p → written m' p.
Proof.
  intros H (r & Hr & Hw). destruct (H p) as [E|(r0 & Hr0 & Hr')].
  - exists r. by rewrite E.
  - eexists. split; [exact Hr'|done].
Qed.

Lemma flags_only_closed m m' : flags_only m m' → closed m → closed m'.
Proof.
  intros H Hc r p He. apply (flags_only_is_Some m m' p H).
  apply (Hc r p). by apply (flags_only_edge m m').
Qed.

Lemma visit_parents_effect (f : Z → InsertState → option InsertState) :
  (∀ p st st', f p st = Some st' → effect p st st') →
  ∀ its st st', visit_parents f its st = Some st' →
    flags_only (recs st) (recs st') ∧
    recordlist st ⊆ recordlist st' ∧
    inserted st `prefix_of` inserted st' ∧
    (∀ x, x ∈ inserted st' →
       x ∈ inserted st ∨ ∃ p, p ∈ its ∧ rtc (edge (recs st)) p x).
Proof.
  intros Hf. induction its as [|it its IH]; intros st st' Hrun; simpl in Hrun.
  { simplify_eq. split; [apply flags_only_refl|]. split; [done|].
    split; [done|]. intros x Hx. by left. }
  destruct (recs st !! it) as [pr|] eqn:Hpr; simpl in Hrun; [|done].
  assert (∃ st1, (if DataWritten pr then Some st else f it st) = Some st1 ∧
                 visit_parents f its st1 = Some st') as (st1 & Hst1 & Hrest).
  { destruct (if DataWritten pr then Some st else f it st) as [st1|];
      simpl in Hrun; [|done]. by exists st1. }
  assert (effect it st st1) as (Hfl1 & Hrl1 & Hpre1 & Hreach1).
  { destruct (DataWritten pr).
    - simplify_eq. split; [apply flags_only_refl|]. split; [done|].
      split; [done|]. intros x Hx. by left.
    - by apply Hf. }
  destruct (IH st1 st' Hrest) as (Hfl2 & Hrl2 & Hpre2 & Hreach2).
  split; [by eapply flags_only_trans|]. split; [by etrans|].
  split; [by etrans|].
  intros x Hx. destruct (Hreach2 x Hx) as [Hin|(p & Hp & Hrtc)].
  - destruct (Hreach1 x Hin) as [?|?]; [by left|].
    right. exists it. split; [by left|done].
  - right. exists p. split; [by right|]. by eapply flags_only_rtc.
Qed.

Lemma Insert_effect fuel : ∀ r st st',
  Insert fuel r st = Some st' → effect r st st' ∧ written (recs st') r.
Proof.
  induction fuel as [|fuel IH]; intros r st st' Hrun; [done|].
  cbn [Insert] in Hrun.
  destruct (recs st !! r) as [r0|] eqn:Hr0; simpl in Hrun; [|done].
  set (st1 := {| recs := <[r:=set_DataWritten true r0]> (recs st);
                 recordlist := recordlist st; inserted := inserted st |}) in *.
  destruct (visit_parents (Insert fuel) (Parents r0) st1) as [st2|] eqn:Hloop;
    simpl in Hrun; [|done].
  destruct (recs st2 !! r) as [r2|] eqn:Hr2; simpl in Hrun; [|done].
  destruct (visit_parents_effect (Insert fuel)) with
    (its := Parents r0) (st := st1) (st' := st2)
    as (Hfl & Hrl & Hpre & Hreach); [|done|].
  { intros p sa sb Hab. by apply IH. }
  pose proof (flags_only_mark (recs st) r r0 Hr0) as Hmark.
  assert (flags_only (recs st) (recs st2)) as Hfl'
    by (by eapply flags_only_trans).
  assert (written (recs st2) r) as Hw.
  { apply (flags_only_written (recs st1) _ r Hfl).
    eexists. split; [apply lookup_insert_eq|done]. }
  assert (∀ x, x ∈ inserted st2 → x ∈ inserted st ∨ rtc (edge (recs st)) r x)
    as Hreach'.
  { intros x Hx. destruct (Hreach x Hx) as [?|(p & Hp & Hrtc)]; [by left|].
    right. eapply rtc_l.
    - exists r0. split; [exact Hr0|exact Hp].
    - exact (flags_only_rtc _ _ _ _ Hmark Hrtc). }
  destruct (DataWritten r0); simplify_eq.
  - split; [|done]. split; [done|]. split; [done|]. split; done.
  - split; [|done]. split; [done|]. simpl. split; [|split].
    + unfold map_insert_range. etrans; [exact Hrl|]. apply map_union_subseteq_l.
    + by apply prefix_app_r.
    + intros x Hx. apply elem_of_app in Hx as [Hx|Hx]; [by apply Hreach'|].
      apply list_elem_of_singleton in Hx as ->. right. apply rtc_refl.
Qed.

Lemma InsertAll_effect fuel roots : ∀ st st',
  InsertAll fuel roots st = Some st' →
  flags_only (recs st) (recs st') ∧
  (∀ x, x ∈ inserted st' →
     x ∈ inserted st ∨ ∃ r, r ∈ roots ∧ rtc (edge (recs st)) r x).
Proof.
  induction roots as [|r roots IH]; intros st st' Hrun; simpl in Hrun.
  { simplify_eq. split; [apply flags_only_refl|]. intros x Hx. by left. }
  destruct (Insert fuel r st) as [st1|] eqn:H1; simpl in Hrun; [|done].
  destruct (Insert_effect _ _ _ _ H1) as [(Hfl1 & _ & _ & Hreach1) _].
  destruct (IH st1 st' Hrun) as (Hfl2 & Hreach2).
  split; [by eapply flags_only_trans|].
  intros x Hx. destruct (Hreach2 x Hx) as [Hin|(p & Hp & Hrtc)].
  - destruct (Hreach1 x Hin) as [?|?]; [by left|].
    right. exists r. split; [by left|done].
  - right. exists p. split; [by right|]. by eapply flags_only_rtc.
Qed.

(** Counting the unwritten records. *)
Lemma unwritten_count_mark m r r0 :
  m !! r = Some r0 → DataWritten r0 = false →
  unwritten_count m = S (unwritten_count (<[r := set_DataWritten true r0]> m)).
Proof.
  intros Hr Hdw. unfold unwritten_count.
  rewrite map_filter_insert_False by (simpl; congruence).
  rewrite map_filter_delete.
  set (u := filter (λ kv, DataWritten kv.2 = false) m).
  assert (u !! r = Some r0) as Hu by (by apply map_lookup_filter_Some).
  rewrite <- (insert_delete_id u r r0 Hu) at 1.
  apply map_size_insert_None, lookup_delete_eq.
Qed.

Lemma unwritten_count_mono m m' :
  flags_only m m' → (unwritten_count m' ≤ unwritten_count m)%nat.
Proof.
  intros H. unfold unwritten_count.
  rewrite <- !(size_dom (D:=gset Z)). apply subseteq_size.
  intros p. rewrite !elem_of_dom. intros [r' Hr'].
  apply map_lookup_filter_Some in Hr' as [Hr' Hdw]. simpl in Hdw.
  destruct (H p) as [E|(r & Hr & Hr'')].
  - exists r'. apply map_lookup_filter_Some. by rewrite <- E.
  - rewrite Hr' in Hr''. by simplify_eq.
Qed.

Lemma visit_parents_returns (f : nat) :
  (∀ st p p0, closed (recs st) → recs st !! p = Some p0 →
     DataWritten p0 = false → (unwritten_count (recs st) ≤ f)%nat →
     is_Some (Insert f p st)) →
  ∀ its st, closed (recs st) →
    (∀ p, p ∈ its → is_Some (recs st !! p)) →
    (unwritten_count (recs st) ≤ f)%nat →
    is_Some (visit_parents (Insert f) its st).
Proof.
  intros Hf. induction its as [|it its IH]; intros st Hc Hits Hn; simpl; [done|].
  destruct (Hits it) as [pr Hpr]; [by left|]. rewrite Hpr. simpl.
  assert (∃ st1, (if DataWritten pr then Some st else Insert f it st) = Some st1 ∧
                 flags_only (recs st) (recs st1)) as (st1 & -> & Hfl).
  { destruct (DataWritten pr) eqn:Hdw.
    - exists st. split; [done|apply flags_only_refl].
    - destruct (Hf st it pr Hc Hpr Hdw Hn) as [st1 Hst1].
      exists st1. split; [done|]. by apply Insert_effect in Hst1 as [[? _] _]. }
  simpl. apply IH.
  - by eapply flags_only_closed.
  - intros p Hp. apply (flags_only_is_Some _ _ p Hfl). apply Hits. by right.
  - pose proof (unwritten_count_mono _ _ Hfl). lia.
Qed.

Lemma Insert_returns_unwritten : ∀ fuel st r r0,
  closed (recs st) → recs st !! r = Some r0 → DataWritten r0 = false →
  (unwritten_count (recs st) ≤ fuel)%nat →
  is_Some (Insert fuel r st).
Proof.
  induction fuel as [|fuel IH]; intros st r r0 Hc Hr Hdw Hn.
  { pose proof (unwritten_count_mark _ _ _ Hr Hdw). lia. }
  cbn [Insert]. rewrite Hr. simpl.
  set (st1 := {| recs := <[r:=set_DataWritten true r0]> (recs st);
                 recordlist := recordlist st; inserted := inserted st |}).
  pose proof (flags_only_mark (recs st) r r0 Hr) as Hmark.
  destruct (visit_parents_returns fuel IH (Parents r0) st1) as [st2 Hloop].
  - by eapply flags_only_closed.
  - intros p Hp. apply (flags_only_is_Some _ _ p Hmark).
    apply (Hc r p). by exists r0.
  - pose proof (unwritten_count_mark _ _ _ Hr Hdw). simpl. lia.
  - rewrite Hloop. simpl.
    destruct (visit_parents_effect (Insert fuel)) with
      (its := Parents r0) (st := st1) (st' := st2) as (Hfl & _); [|done|].
    { intros p sa sb Hab. by apply Insert_effect in Hab as [? _]. }
    destruct (proj2 (flags_only_is_Some _ _ r Hfl)) as [r2 ->].
    + eexists. apply lookup_insert_eq.
    + simpl. rewrite Hdw. done.
Qed.

Lemma Insert_returns fuel st r :
  closed (recs st) → is_Some (recs st !! r) →
  (unwritten_count (recs st) < fuel)%nat →
  is_Some (Insert fuel r st).
Proof.
  intros Hc [r0 Hr] Hn.
  destruct (DataWritten r0) eqn:Hdw.
  - destruct fuel as [|fuel]; [lia|].
    cbn [Insert]. rewrite Hr. simpl.
    set (st1 := {| recs := <[r:=set_DataWritten true r0]> (recs st);
                   recordlist := recordlist st; inserted := inserted st |}).
    pose proof (flags_only_mark (recs st) r r0 Hr) as Hmark.
    destruct (visit_parents_returns fuel (Insert_returns_unwritten fuel)
                (Parents r0) st1) as [st2 Hloop].
    + by eapply flags_only_closed.
    + intros p Hp. apply (flags_only_is_Some _ _ p Hmark).
      apply (Hc r p). by exists r0.
    + pose proof (unwritten_count_mono _ _ Hmark). simpl. lia.
    + rewrite Hloop. simpl.
      destruct (visit_parents_effect (Insert fuel)) with
        (its := Parents r0) (st := st1) (st' := st2) as (Hfl & _); [|done|].
      { intros p sa sb Hab. by apply Insert_effect in Hab as [? _]. }
      destruct (proj2 (flags_only_is_Some _ _ r Hfl)) as [r2 ->].
      * eexists. apply lookup_insert_eq.
      * simpl. rewrite Hdw. done.
  - eapply Insert_returns_unwritten; eauto. lia.
Qed.

(** Nothing to do: the record and its parents are written. *)
Lemma visit_parents_written (f : Z → InsertState → option InsertState) its st :
  (∀ p, p ∈ its → written (recs st) p) → visit_parents f its st = Some st.
Proof.
  induction its as [|it its IH]; intros Hall; simpl; [done|].
  destruct (Hall it) as (pr & Hpr & Hdw); [by left|].
  rewrite Hpr. simpl. rewrite Hdw. simpl.
  apply IH. intros p Hp. apply Hall. by right.
Qed.

Lemma Insert_written_noop fuel r st r0 :
  recs st !! r = Some r0 → DataWritten r0 = true →
  (∀ p, p ∈ Parents r0 → written (recs st) p) →
  Insert (S fuel) r st = Some st.
Proof.
  intros Hr Hdw Hall. cbn [Insert]. rewrite Hr. simpl.
  assert (set_DataWritten true r0 = r0) as ->.
  { destruct r0; simpl in *; by subst. }
  rewrite insert_id by done.
  assert ({| recs := recs st; recordlist := recordlist st;
             inserted := inserted st |} = st) as -> by (by destruct st).
  rewrite visit_parents_written by done. simpl.
  rewrite Hr. simpl. by rewrite Hdw.
Qed.

End insert_more.

Lemma two_cycle_closed : Records.closed two_cycle.
Proof.
  intros r p (rec & Hrec & Hp). unfold two_cycle in Hrec.
  apply lookup_insert_Some in Hrec as [[<- <-]|[_ Hrec]].
  { apply list_elem_of_singleton in Hp as ->. eexists. reflexivity. }
  apply lookup_insert_Some in Hrec as [[<- <-]|[_ Hrec]].
  { apply list_elem_of_singleton in Hp as ->. eexists. reflexivity. }
  by rewrite lookup_empty in Hrec.
Qed.

Example Insert_two_cycle :
  Records.inserted <$> Records.Insert 2 1 (Records.initial two_cycle)
  = Some [2; 1].
Proof. reflexivity. Qed.

(** X9. Whatever the parent graph, a call of [Insert] that returns has
    only set [DataWritten] flags in the records (parents, chunks and all
    other members are as before), has left the record it was called on
    written, has kept every chunk that was in [recordlist] under its key,
    has only appended to the history of inserted records, and every
    record it appended is the record itself or one of its ancestors. *)
Theorem Insert_only_sets_flags (fuel : nat) (r : Z)
    (st st' : Records.InsertState) :
  Records.Insert fuel r st = Some st' →
  flags_only (Records.recs st) (Records.recs st') ∧
  Records.written (Records.recs st') r ∧
  Records.recordlist st ⊆ Records.recordlist st' ∧
  Records.inserted st `prefix_of` Records.inserted st' ∧
  (∀ x, x ∈ Records.inserted st' →
     x ∈ Records.inserted st ∨ rtc (Records.edge (Records.recs st)) r x).
Proof.
  intros Hrun.
  destruct (Insert_effect fuel r st st' Hrun) as [(Hfl & Hrl & Hpre & Hreach) Hw].
  done.
Qed.

Lemma Insert_only_sets_flags_witness :
  ∃ st', Records.Insert 2 1 (Records.initial two_cycle) = Some st' ∧
         flags_only two_cycle (Records.recs st') ∧
         Records.written (Records.recs st') 1 ∧
         Records.inserted (Records.initial two_cycle)
           `prefix_of` Records.inserted st'.
Proof.
  destruct (Records.Insert 2 1 (Records.initial two_cycle)) as [st'|] eqn:E;
    [|discriminate E].
  exists st'. split; [reflexivity|].
  destruct (Insert_only_sets_flags 2 1 (Records.initial two_cycle) st' E)
    as (Hfl & Hw & _ & Hpre & _).
  split; [exact Hfl|]. split; [exact Hw|exact Hpre].
Defined.

(** X10. [Insert] returns on every graph whose parent pointers all point
    to records, cyclic or not, when called on a record of the graph: a
    recursion depth of one more than the number of unwritten records is
    always enough, because each nested call is on a record it has just
    flagged as written. *)
Theorem Insert_returns_on_closed_graph (fuel : nat) (r : Z)
    (st : Records.InsertState) :
  Records.closed (Records.recs st) →
  is_Some (Records.recs st !! r) →
  (unwritten_count (Records.recs st) < fuel)%nat →
  ∃ st', Records.Insert fuel r st = Some st'.
Proof. intros Hc Hr Hn. by apply Insert_returns. Qed.

Lemma Insert_returns_on_closed_graph_witness :
  Records.closed two_cycle ∧ is_Some (two_cycle !! 1) ∧
  (unwritten_count two_cycle < 3)%nat ∧
  ∃ st', Records.Insert 3 1 (Records.initial two_cycle) = Some st'.
Proof.
  assert (is_Some (two_cycle !! 1)) as Hr by (eexists; reflexivity).
  assert (unwritten_count two_cycle < 3)%nat as Hn by (vm_compute; lia).
  split; [exact two_cycle_closed|]. split; [exact Hr|]. split; [exact Hn|].
  exact (Insert_returns_on_closed_graph 3 1 (Records.initial two_cycle)
           two_cycle_closed Hr Hn).
Defined.

(** X11. On an acyclic parent graph with no record written at the start,
    after any sequence of [Insert] calls a further [Insert] on any record
    that is already in the history changes nothing at all: not the flags,
    not [recordlist], not the history. *)
Theorem Insert_again_changes_nothing (G : gmap Z Records.D3D12ResourceRecord)
    (roots : list Z) :
  Records.closed G → Records.acyclic G → Records.unwritten G →
  (∀ r, r ∈ roots → is_Some (G !! r)) →
  ∃ st', Records.InsertAll (size G) roots (Records.initial G) = Some st' ∧
         ∀ r fuel, r ∈ Records.inserted st' →
           Records.Insert (S fuel) r st' = Some st'.
Proof.
  intros Hc Ha Hu Hroots.
  destruct (InsertAll_spec G Hc Ha (size G) roots (Records.initial G))
    as (st' & Hrun & HI & _ & _); [by apply Inv_initial | done | done |].
  exists st'. split; [done|]. intros r fuel Hr.
  destruct HI as (Hg & _ & Hw & _ & Hpf & _).
  destruct (proj2 (Hw r)) as (r0 & Hr0 & Hdw); [by right|].
  apply (Insert_written_noop fuel r st' r0 Hr0 Hdw).
  intros p Hp. apply Hw. right.
  apply list_elem_of_lookup in Hr as [j Hj].
  destruct (Hpf j r p Hj) as (i & _ & Hi); [|by eapply list_elem_of_lookup_2].
  destruct (same_graph_is_Some G (Records.recs st') r Hg) as [rec Hrec];
    [by eexists|].
  destruct (same_graph_lookup G _ _ _ Hg Hrec) as (r0' & Hr0' & Hpar & _).
  exists rec. split; [done|]. rewrite <- Hpar. by simplify_eq.
Qed.

Lemma Insert_again_changes_nothing_witness :
  Records.closed diamond ∧ Records.acyclic diamond ∧ Records.unwritten diamond ∧
  (∀ r, r ∈ [4] → is_Some (diamond !! r)) ∧
  ∃ st', Records.InsertAll (size diamond) [4] (Records.initial diamond) = Some st' ∧
         ∀ r fuel, r ∈ Records.inserted st' →
           Records.Insert (S fuel) r st' = Some st'.
Proof.
  assert (∀ r, r ∈ [4] → is_Some (diamond !! r)) as Hroots.
  { intros r Hr. apply list_elem_of_singleton in Hr as ->. eexists. reflexivity. }
  split; [exact diamond_closed|]. split; [exact diamond_acyclic|].
  split; [exact diamond_unwritten|]. split; [exact Hroots|].
  exact (Insert_again_changes_nothing diamond [4]
           diamond_closed diamond_acyclic diamond_unwritten Hroots).
Defined.

(** X12. On an acyclic parent graph with no record written at the start,
    the records whose chunks a sequence of [Insert] calls puts into
    [recordlist] are exactly the records the calls were made on and their
    ancestors: nothing that is not reachable through parent pointers is
    inserted, and nothing that is reachable is left out. *)
Theorem Insert_history_is_ancestors (G : gmap Z Records.D3D12ResourceRecord)
    (roots : list Z) :
  Records.closed G → Records.acyclic G → Records.unwritten G →
  (∀ r, r ∈ roots → is_Some (G !! r)) →
  ∃ st', Records.InsertAll (size G) roots (Records.initial G) = Some st' ∧
         ∀ x, x ∈ Records.inserted st' ↔
              ∃ r, r ∈ roots ∧ rtc (Records.edge G) r x.
Proof.
  intros Hc Ha Hu Hroots.
  destruct (InsertAll_spec G Hc Ha (size G) roots (Records.initial G))
    as (st' & Hrun & HI & Hall & _); [by apply Inv_initial | done | done |].
  exists st'. split; [done|]. intros x. split.
  - intros Hx.
    destruct (InsertAll_effect _ _ _ _ Hrun) as [_ Hreach].
    destruct (Hreach x Hx) as [Hnil|?]; [|done].
    by apply elem_of_nil in Hnil.
  - intros (r & Hr & Hrtc). apply Hall in Hr.
    destruct HI as (_ & _ & _ & _ & Hpf & _).
    induction Hrtc as [|a b c Hab _ IH]; [done|].
    apply IH. apply list_elem_of_lookup in Hr as [j Hj].
    destruct (Hpf j a b Hj Hab) as (i & _ & Hi).
    by eapply list_elem_of_lookup_2.
Qed.

Lemma Insert_history_is_ancestors_witness :
  Records.closed diamond ∧ Records.acyclic diamond ∧ Records.unwritten diamond ∧
  (∀ r, r ∈ [2] → is_Some (diamond !! r)) ∧
  ∃ st', Records.InsertAll (size diamond) [2] (Records.initial diamond) = Some st' ∧
         ∀ x, x ∈ Records.inserted st' ↔
              ∃ r, r ∈ [2] ∧ rtc (Records.edge diamond) r x.
Proof.
  assert (∀ r, r ∈ [2] → is_Some (diamond !! r)) as Hroots.
  { intros r Hr. apply list_elem_of_singleton in Hr as ->. eexists. reflexivity. }
  split; [exact diamond_closed|]. split; [exact diamond_acyclic|].
  split; [exact diamond_unwritten|]. split; [exact Hroots|].
  exact (Insert_history_is_ancestors diamond [2]
           diamond_closed diamond_acyclic diamond_unwritten Hroots).
Defined.

(** ** Bake, continued *)

Ltac insert_lookups :=
  repeat first [ rewrite lookup_insert_eq
               | rewrite lookup_insert_ne by done ].

Section bake_more.
Import Records.

Lemma set_m_Chunks_set c c' (r : D3D12ResourceRecord) :
  set_m_Chunks c (set_m_Chunks c' r) = set_m_Chunks c r.
Proof. done. Qed.

Lemma set_m_Chunks_id (r : D3D12ResourceRecord) : set_m_Chunks (m_Chunks r) r = r.
Proof. by destruct r. Qed.

Lemma with_lists_of_self (a : CmdListRecordingInfo) : with_lists_of a a = a.
Proof. by destruct a. Qed.

Lemma with_lists_of_back (a b : CmdListRecordingInfo) :
  with_lists_of (with_lists_of a b) (with_lists_of b a) = a.
Proof. by destruct a, b. Qed.

Lemma lookup_insert2_l {A} (m : gmap Z A) p q x y :
  <[q := y]> (<[p := x]> m) !! p = Some (if decide (p = q) then y else x).
Proof. destruct (decide (p = q)) as [E|E]; [rewrite E|]; by insert_lookups. Qed.

Lemma lookup_insert2_r {A} (m : gmap Z A) p q x y :
  <[q := y]> (<[p := x]> m) !! q = Some y.
Proof. apply lookup_insert_eq. Qed.

Lemma insert2_restore {A} (m : gmap Z A) p q a b x y :
  m !! p = Some a → m !! q = Some b →
  <[q := b]> (<[p := a]> (<[q := y]> (<[p := x]> m))) = m.
Proof.
  intros Ha Hb. apply map_eq. intros k.
  destruct (decide (k = q)) as [->|Hq]; [by insert_lookups|].
  destruct (decide (k = p)) as [->|Hp]; by insert_lookups.
Qed.

Lemma SwapChunks_result this s rec baked :
  records s !! this = Some rec → records s !! bakedCommands rec = Some baked →
  SwapChunks this (bakedCommands rec) s =
    Some {| records := <[bakedCommands rec := set_m_Chunks (m_Chunks rec) baked]>
                         (<[this := set_m_Chunks (m_Chunks baked) rec]> (records s));
            cmdInfos := cmdInfos s |}.
Proof.
  intros Hrec Hbaked. unfold SwapChunks.
  rewrite (swap_member_Some _ _ _ _ _ rec baked) by done. simpl.
  case_decide as E; [|done].
  rewrite <- E in Hbaked. by simplify_eq.
Qed.

(** The four [swap] calls on the recording infos. *)
Lemma swap_lists_result (p q : Z) (C : gmap Z CmdListRecordingInfo) a b :
  C !! p = Some a → C !! q = Some b →
  (C1 ← swap_member barriers set_barriers p q C;
   C2 ← swap_member dirtied set_dirtied p q C1;
   C3 ← swap_member boundDescs set_boundDescs p q C2;
   swap_member bundles set_bundles p q C3)
  = Some (<[q := with_lists_of b a]> (<[p := with_lists_of a b]> C)).
Proof.
  intros Ha Hb.
  rewrite (swap_member_Some _ _ p q C a b Ha Hb). simpl.
  rewrite (swap_member_Some _ _ p q _ _ _
             (lookup_insert2_l _ _ _ _ _) (lookup_insert2_r _ _ _ _ _)). simpl.
  rewrite (swap_member_Some _ _ p q _ _ _
             (lookup_insert2_l _ _ _ _ _) (lookup_insert2_r _ _ _ _ _)). simpl.
  rewrite (swap_member_Some _ _ p q _ _ _
             (lookup_insert2_l _ _ _ _ _) (lookup_insert2_r _ _ _ _ _)). simpl.
  f_equal. apply map_eq. intros k.
  destruct (decide (p = q)) as [Hpq|Hpq].
  - rewrite <- Hpq in *. assert (b = a) as -> by congruence.
    destruct (decide (k = p)) as [->|Hk]; insert_lookups; [|done].
    by destruct a.
  - destruct (decide (k = q)) as [->|Hq]; insert_lookups; [by destruct a, b|].
    destruct (decide (k = p)) as [->|Hp]; insert_lookups; [|done].
    by destruct a, b.
Qed.

Lemma Bake_result this s rec baked ci_live ci_baked :
  records s !! this = Some rec →
  records s !! bakedCommands rec = Some baked →
  cmdInfos s !! cmdInfo rec = Some ci_live →
  cmdInfos s !! cmdInfo baked = Some ci_baked →
  Bake this s =
    Some {| records := <[bakedCommands rec := set_m_Chunks (m_Chunks rec) baked]>
                         (<[this := set_m_Chunks (m_Chunks baked) rec]> (records s));
            cmdInfos := <[cmdInfo baked := with_lists_of ci_baked ci_live]>
                          (<[cmdInfo rec := with_lists_of ci_live ci_baked]>
                             (cmdInfos s)) |}.
Proof.
  intros Hrec Hbaked Hlive Hcib.
  unfold Bake. rewrite Hrec. simpl.
  rewrite (SwapChunks_result this s rec baked) by done. simpl.
  set (R := <[bakedCommands rec := _]> _).
  assert (∀ (A : Type) (get : CmdListRecordingInfo → A) set cis,
    swap_cmdInfo_member get set this {| records := R; cmdInfos := cis |} =
    (m ← swap_member get set (cmdInfo rec) (cmdInfo baked) cis;
     Some {| records := R; cmdInfos := m |})) as Hstep.
  { intros A get set cis.
    unfold swap_cmdInfo_member, live_cmdInfo, baked_cmdInfo. simpl.
    subst R. rewrite lookup_insert2_l. simpl.
    case_decide as E.
    - rewrite <- E in Hbaked. assert (baked = rec) as -> by congruence.
      simpl. rewrite <- E. rewrite lookup_insert2_l. simpl.
      by rewrite decide_True by done.
    - simpl. by rewrite lookup_insert_eq. }
  clearbody R.
  pose proof (swap_lists_result _ _ _ _ _ Hlive Hcib) as Hall.
  rewrite (Hstep _ barriers set_barriers (cmdInfos s)).
  destruct (swap_member barriers set_barriers _ _ (cmdInfos s)) as [C1|];
    simpl in Hall |- *; [|done].
  rewrite (Hstep _ dirtied set_dirtied C1).
  destruct (swap_member dirtied set_dirtied _ _ C1) as [C2|];
    simpl in Hall |- *; [|done].
  rewrite (Hstep _ boundDescs set_boundDescs C2).
  destruct (swap_member boundDescs set_boundDescs _ _ C2) as [C3|];
    simpl in Hall |- *; [|done].
  rewrite (Hstep _ bundles set_bundles C3), Hall. done.
Qed.

End bake_more.

(** X13. [Bake] undoes itself: for a record whose [cmdInfo],
    [bakedCommands] record and that record's [cmdInfo] are allocated, a
    second [Bake] right after the first gives back the store exactly as
    it was before the first. *)
Theorem Bake_twice_restores (this : Z) (s : Records.Store)
    (rec baked : Records.D3D12ResourceRecord)
    (ci_live ci_baked : Records.CmdListRecordingInfo) :
  Records.records s !! this = Some rec →
  Records.records s !! Records.bakedCommands rec = Some baked →
  Records.cmdInfos s !! Records.cmdInfo rec = Some ci_live →
  Records.cmdInfos s !! Records.cmdInfo baked = Some ci_baked →
  ∃ s', Records.Bake this s = Some s' ∧ Records.Bake this s' = Some s.
Proof.
  intros Hrec Hbaked Hlive Hcib.
  eexists. split; [by apply (Bake_result this s rec baked ci_live ci_baked)|].
  set (b := Records.bakedCommands rec) in *.
  set (p := Records.cmdInfo rec) in *. set (q := Records.cmdInfo baked) in *.
  set (rec1 := if decide (this = b)
               then Records.set_m_Chunks (Records.m_Chunks rec) baked
               else Records.set_m_Chunks (Records.m_Chunks baked) rec).
  set (baked1 := Records.set_m_Chunks (Records.m_Chunks rec) baked).
  set (ci1 := if decide (p = q) then with_lists_of ci_baked ci_live
              else with_lists_of ci_live ci_baked).
  assert (rec = baked ∨ this ≠ b) as Hcase.
  { destruct (decide (this = b)) as [E|]; [left|by right].
    rewrite <- E in Hbaked. congruence. }
  assert (ci_live = ci_baked ∨ p ≠ q) as Hcase'.
  { destruct (decide (p = q)) as [E|]; [left|by right].
    rewrite <- E in Hcib. congruence. }
  assert (Records.bakedCommands rec1 = b ∧ Records.cmdInfo rec1 = p ∧
          Records.cmdInfo baked1 = q) as (Hb1 & Hp1 & Hq1).
  { subst rec1 baked1. destruct Hcase as [<-|Hne].
    - by case_decide.
    - by rewrite decide_False. }
  rewrite (Bake_result this _ rec1 baked1 ci1 (with_lists_of ci_baked ci_live)).
  - f_equal. destruct s as [R C]. simpl in *. rewrite Hb1, Hp1, Hq1. f_equal.
    + etrans; [|eapply (insert2_restore R this b rec baked); [exact Hrec|exact Hbaked]].
      f_equal; [|f_equal].
      * subst rec1 baked1. destruct Hcase as [<-|Hne].
        -- case_decide; by destruct rec.
        -- rewrite decide_False by done. by destruct baked.
      * subst rec1 baked1. destruct Hcase as [<-|Hne].
        -- case_decide; by destruct rec.
        -- rewrite decide_False by done. by destruct rec.
    + etrans; [|eapply (insert2_restore C p q ci_live ci_baked);
                 [exact Hlive|exact Hcib]].
      f_equal; [|f_equal].
      * subst ci1. destruct Hcase' as [<-|Hne].
        -- case_decide; by destruct ci_live.
        -- rewrite decide_False by done. by destruct ci_live, ci_baked.
      * subst ci1. destruct Hcase' as [<-|Hne].
        -- case_decide; by destruct ci_live.
        -- rewrite decide_False by done. by destruct ci_live, ci_baked.
  - simpl. apply lookup_insert2_l.
  - simpl. rewrite Hb1. apply lookup_insert_eq.
  - simpl. rewrite Hp1. apply lookup_insert2_l.
  - simpl. apply lookup_insert_eq.
Qed.

Lemma Bake_twice_restores_witness :
  ∃ rec baked ci_live ci_baked,
    Records.records bake_store !! 100 = Some rec ∧
    Records.records bake_store !! Records.bakedCommands rec = Some baked ∧
    Records.cmdInfos bake_store !! Records.cmdInfo rec = Some ci_live ∧
    Records.cmdInfos bake_store !! Records.cmdInfo baked = Some ci_baked ∧
    ∃ s', Records.Bake 100 bake_store = Some s' ∧
          Records.Bake 100 s' = Some bake_store.
Proof.
  eexists _, _, _, _.
  split; [reflexivity|]. split; [reflexivity|].
  split; [reflexivity|]. split; [reflexivity|].
  eapply (Bake_twice_restores 100 bake_store); reflexivity.
Defined.

(** X14. [Bake] touches nothing but the chunk lists of the two records
    and the barriers, dirtied, boundDescs and bundles lists of their two
    recording infos: [tiledResources] stays with the info it was in, all
    other members of the four objects keep their values, and every other
    record and recording info of the store is as before. *)
Theorem Bake_frame (this : Z) (s : Records.Store)
    (rec baked : Records.D3D12ResourceRecord)
    (ci_live ci_baked : Records.CmdListRecordingInfo) :
  Records.records s !! this = Some rec →
  Records.records s !! Records.bakedCommands rec = Some baked →
  Records.cmdInfos s !! Records.cmdInfo rec = Some ci_live →
  Records.cmdInfos s !! Records.cmdInfo baked = Some ci_baked →
  ∃ s', Records.Bake this s = Some s' ∧
    Records.records s' !! this
      = Some (Records.set_m_Chunks (Records.m_Chunks baked) rec) ∧
    Records.records s' !! Records.bakedCommands rec
      = Some (Records.set_m_Chunks (Records.m_Chunks rec) baked) ∧
    Records.cmdInfos s' !! Records.cmdInfo rec
      = Some (with_lists_of ci_live ci_baked) ∧
    Records.cmdInfos s' !! Records.cmdInfo baked
      = Some (with_lists_of ci_baked ci_live) ∧
    (∀ k, k ≠ this → k ≠ Records.bakedCommands rec →
       Records.records s' !! k = Records.records s !! k) ∧
    (∀ k, k ≠ Records.cmdInfo rec → k ≠ Records.cmdInfo baked →
       Records.cmdInfos s' !! k = Records.cmdInfos s !! k).
Proof.
  intros Hrec Hbaked Hlive Hcib.
  eexists. split; [by apply (Bake_result this s rec baked ci_live ci_baked)|].
  simpl. split; [|split; [|split; [|split; [|split]]]].
  - rewrite lookup_insert2_l. case_decide as E; [|done].
    rewrite <- E in Hbaked. by simplify_eq.
  - apply lookup_insert_eq.
  - rewrite lookup_insert2_l. case_decide as E; [|done].
    rewrite <- E in Hcib. by simplify_eq.
  - apply lookup_insert_eq.
  - intros k H1 H2. by insert_lookups.
  - intros k H1 H2. by insert_lookups.
Qed.

Lemma Bake_frame_witness :
  ∃ rec baked ci_live ci_baked,
    Records.records bake_store !! 100 = Some rec ∧
    Records.records bake_store !! Records.bakedCommands rec = Some baked ∧
    Records.cmdInfos bake_store !! Records.cmdInfo rec = Some ci_live ∧
    Records.cmdInfos bake_store !! Records.cmdInfo baked = Some ci_baked ∧
    ∃ s', Records.Bake 100 bake_store = Some s' ∧
          Records.cmdInfos s' !! 300 = Some (with_lists_of ci_live ci_baked) ∧
          Records.cmdInfos s' !! 500 = Records.cmdInfos bake_store !! 500.
Proof.
  eexists _, _, _, _.
  split; [reflexivity|]. split; [reflexivity|].
  split; [reflexivity|]. split; [reflexivity|].
  edestruct (Bake_frame 100 bake_store) as (s' & Hb & _ & _ & Hl & _ & _ & Hother);
    [reflexivity | reflexivity | reflexivity | reflexivity |].
  exists s'. split; [exact Hb|]. split; [exact Hl|].
  apply Hother; simpl; lia.
Defined.

Lemma Bake_is_Some (this : Z) (s : Records.Store) :
  is_Some (Records.Bake this s) ↔
  ∃ rec baked,
    Records.records s !! this = Some rec ∧
    Records.records s !! Records.bakedCommands rec = Some baked ∧
    is_Some (Records.cmdInfos s !! Records.cmdInfo rec) ∧
    is_Some (Records.cmdInfos s !! Records.cmdInfo baked).
Proof.
  split.
  - intros [s' Hrun]. unfold Records.Bake in Hrun.
    destruct (Records.records s !! this) as [rec|] eqn:Hrec; simpl in Hrun; [|done].
    destruct (Records.records s !! Records.bakedCommands rec) as [baked|] eqn:Hbaked.
    2:{ unfold Records.SwapChunks, Records.swap_member in Hrun.
        rewrite Hrec in Hrun. simpl in Hrun. rewrite Hbaked in Hrun. done. }
    exists rec, baked. split; [done|]. split; [done|].
    rewrite (SwapChunks_result this s rec baked) in Hrun by done. simpl in Hrun.
    set (R := <[Records.bakedCommands rec := _]> _) in Hrun.
    assert (Records.live_cmdInfo this
              {| Records.records := R; Records.cmdInfos := Records.cmdInfos s |}
            = Some (Records.cmdInfo rec)) as Hp.
    { unfold Records.live_cmdInfo. simpl. subst R. rewrite lookup_insert2_l.
      simpl. case_decide as E; [|done].
      rewrite <- E in Hbaked. by simplify_eq. }
    assert (Records.baked_cmdInfo this
              {| Records.records := R; Records.cmdInfos := Records.cmdInfos s |}
            = Some (Records.cmdInfo baked)) as Hq.
    { unfold Records.baked_cmdInfo. simpl. subst R. rewrite lookup_insert2_l.
      simpl. case_decide as E.
      - rewrite <- E in Hbaked. assert (baked = rec) as -> by congruence.
        simpl. rewrite <- E.
        rewrite lookup_insert2_l. simpl. by rewrite decide_True by done.
      - simpl. by rewrite lookup_insert_eq. }
    unfold Records.swap_cmdInfo_member at 4 in Hrun.
    rewrite Hp, Hq in Hrun. simpl in Hrun.
    unfold Records.swap_member at 1 in Hrun.
    destruct (Records.cmdInfos s !! Records.cmdInfo rec) as [a|];
      simpl in Hrun; [|done].
    destruct (Records.cmdInfos s !! Records.cmdInfo baked) as [b|];
      simpl in Hrun; [|done].
    split; by eexists.
  - intros (rec & baked & Hrec & Hbaked & [a Ha] & [b Hb]).
    rewrite (Bake_result this s rec baked a b) by done. by eexists.
Qed.

(** X15. In a store that holds nothing at the NULL address, [Bake] has a
    result exactly when the record, its [bakedCommands] record and the
    [cmdInfo] objects of both are allocated; so there is no result when
    the record pointer, [bakedCommands], the record's [cmdInfo] or the
    baked record's [cmdInfo] is NULL, nor when one of them dangles. *)
Theorem Bake_defined_iff (this : Z) (s : Records.Store) :
  Records.records s !! NULL = None →
  Records.cmdInfos s !! NULL = None →
  (is_Some (Records.Bake this s) ↔
   ∃ rec baked,
     Records.records s !! this = Some rec ∧
     Records.records s !! Records.bakedCommands rec = Some baked ∧
     is_Some (Records.cmdInfos s !! Records.cmdInfo rec) ∧
     is_Some (Records.cmdInfos s !! Records.cmdInfo baked)) ∧
  (this = NULL → Records.Bake this s = None) ∧
  (∀ rec, Records.records s !! this = Some rec →
     Records.bakedCommands rec = NULL ∨ Records.cmdInfo rec = NULL →
     Records.Bake this s = None) ∧
  (∀ rec baked, Records.records s !! this = Some rec →
     Records.records s !! Records.bakedCommands rec = Some baked →
     Records.cmdInfo baked = NULL →
     Records.Bake this s = None).
Proof.
  intros HnullR HnullC.
  assert (∀ P : Prop, (is_Some (Records.Bake this s) → P → False) →
            P → Records.Bake this s = None) as Hnone.
  { intros P Himp HP. destruct (Records.Bake this s) eqn:E; [|done].
    destruct (Himp (mk_is_Some _ _ eq_refl) HP). }
  split; [apply Bake_is_Some|]. split; [|split].
  - apply Hnone. intros Hsome ->.
    apply Bake_is_Some in Hsome as (rec & _ & Hrec & _). congruence.
  - intros rec Hrec. apply Hnone. intros Hsome Hnull.
    apply Bake_is_Some in Hsome as (rec' & baked & Hrec' & Hbaked & [a Ha] & _).
    assert (rec' = rec) as -> by congruence.
    destruct Hnull as [E|E]; rewrite E in *; congruence.
  - intros rec baked Hrec Hbaked. apply Hnone. intros Hsome Hnull.
    apply Bake_is_Some in Hsome as (rec' & baked' & Hrec' & Hbaked' & _ & [b Hb]).
    assert (rec' = rec) as -> by congruence.
    assert (baked' = baked) as -> by congruence.
    rewrite Hnull in Hb. congruence.
Qed.

Lemma Bake_defined_iff_witness :
  let live := D3D12ResourceRecord_new false [] ∅ in
  let s := {| Records.records := <[100 := live]> ∅; Records.cmdInfos := ∅ |} in
  Records.records s !! NULL = None ∧ Records.cmdInfos s !! NULL = None ∧
  Records.records s !! 100 = Some live ∧
  Records.Bake 100 s = None ∧
  Records.Bake NULL s = None.
Proof.
  intros live s.
  assert (Records.records s !! NULL = None) as HR by reflexivity.
  assert (Records.cmdInfos s !! NULL = None) as HC by reflexivity.
  destruct (Bake_defined_iff 100 s HR HC) as (_ & _ & Hptr & _).
  destruct (Bake_defined_iff NULL s HR HC) as (_ & Hthis & _).
  split; [exact HR|]. split; [exact HC|]. split; [reflexivity|]. split.
  - apply (Hptr live); [reflexivity|]. left. reflexivity.
  - apply Hthis. reflexivity.
Defined.

(** X21. A record as its constructor leaves it, with [cmdInfo] and
    [bakedCommands] NULL, cannot be baked: in a store that holds no
    record at the NULL address [Bake] has no result. *)
Theorem Bake_new_record_fails (this : Z) (s : Records.Store)
    (dw : bool) (ps : list Z) (cs : gmap Z Z) :
  Records.records s !! this = Some (D3D12ResourceRecord_new dw ps cs) →
  Records.records s !! NULL = None →
  Records.Bake this s = None.
Proof.
  intros Hrec Hnull. unfold Records.Bake. rewrite Hrec. simpl.
  unfold Records.SwapChunks, Records.swap_member.
  rewrite Hrec. simpl. by rewrite Hnull.
Qed.

Lemma Bake_new_record_fails_witness :
  let s := {| Records.records := <[100 := D3D12ResourceRecord_new false [] ∅]> ∅;
              Records.cmdInfos := ∅ |} in
  Records.records s !! 100 = Some (D3D12ResourceRecord_new false [] ∅) ∧
  Records.records s !! NULL = None ∧
  Records.Bake 100 s = None.
Proof.
  intros s. split; [reflexivity|]. split; [reflexivity|].
  apply (Bake_new_record_fails 100 s false [] ∅); reflexivity.
Defined.

(** ** Tile mappings, continued *)

(** X16. [Update] never adds or changes a heap binding: every binding
    in the table after the call was in the table before it with the same
    mapping; with a heap that is not NULL the resource is exactly as it
    was, whatever the other arguments; and a second call with the same
    arguments changes nothing more. *)
Theorem Update_never_binds (res : Tiles.ReservedResource) (a : Tiles.UpdateArgs) :
  Tiles.mappings (Tiles.Update res a) ⊆ Tiles.mappings res ∧
  (Tiles.pHeap a ≠ NULL → Tiles.Update res a = res) ∧
  Tiles.Update (Tiles.Update res a) a = Tiles.Update res a.
Proof.
  unfold Tiles.Update.
  destruct (Tiles.pResourceRegionStartCoordinates a), (Tiles.pResourceRegionSizes a);
    case_decide; simpl;
    (split; [first [apply map_empty_subseteq | done]|]);
    (split; [by intros ?|done]).
Qed.

Lemma Update_never_binds_witness :
  let tm := {| Tiles.NumResourceRegions := 1; Tiles.resourceRegionStartCoords := None;
               Tiles.resourceRegionSizes := None; Tiles.NumRanges := 1;
               Tiles.rangeFlags := None; Tiles.heapRangeStarts := None;
               Tiles.rangeTileCounts := None; Tiles.tm_Flags := 0 |} in
  let res := {| Tiles.mappings := <[4096 := tm]> ∅ |} in
  let a := {| Tiles.a_NumResourceRegions := 1;
              Tiles.pResourceRegionStartCoordinates :=
                Some [ {| Tiles.X := 1; Tiles.Y := 0; Tiles.Z_ := 0;
                          Tiles.Subresource := 0 |} ];
              Tiles.pResourceRegionSizes := None;
              Tiles.pHeap := 8192; Tiles.a_NumRanges := 1;
              Tiles.pRangeFlags := Some [0]; Tiles.pHeapRangeStartOffsets := Some [3];
              Tiles.pRangeTileCounts := Some [1]; Tiles.a_Flags := 0 |} in
  Tiles.pHeap a ≠ NULL ∧ Tiles.Update res a = res.
Proof.
  intros tm res a.
  assert (Tiles.pHeap a ≠ NULL) as Hne by (simpl; unfold NULL; lia).
  split; [exact Hne|].
  destruct (Update_never_binds res a) as (_ & Hsame & _).
  exact (Hsame Hne).
Defined.

(** ** The squeezed UAV description, continued *)

Lemma wrap8_range x : is_uint8 (wrap8 x).
Proof. unfold is_uint8, wrap8. apply Z.mod_pos_bound. lia. Qed.

Lemma wrap8_fixed x : wrap8 x = x ↔ is_uint8 x.
Proof.
  split; [|apply wrap8_id]. intros <-. apply wrap8_range.
Qed.

(** X17. Squeezing and expanding gives back the description exactly
    when its [Format], [ViewDimension] and [Buffer.Flags] fit in 8 bits:
    a value of 256 or more, or a negative one, in any of the three is
    lost. *)
Theorem uav_squeeze_roundtrip_iff (desc : Squeeze.D3D12_UNORDERED_ACCESS_VIEW_DESC) :
  Squeeze.AsDesc (Squeeze.Init desc) = desc ↔
  is_uint8 (Squeeze.Format desc) ∧ is_uint8 (Squeeze.ViewDimension desc) ∧
  is_uint8 (Squeeze.Flags (Squeeze.Buffer desc)).
Proof.
  destruct desc as [f v [fe ne st co fl]].
  unfold Squeeze.AsDesc, Squeeze.Init. simpl. split.
  - intros E. injection E as Hf Hv Hfl.
    by rewrite <- !wrap8_fixed.
  - intros (Hf & Hv & Hfl). by rewrite !wrap8_id.
Qed.

Lemma uav_expand_roundtrip_any (s : Squeeze.D3D12_UNORDERED_ACCESS_VIEW_DESC_SQUEEZED) :
  squeezed_bytes s → Squeeze.Init (Squeeze.AsDesc s) = s.
Proof.
  intros (Hf & Hv & Hfl). destruct s as [f v fl [fe ne st co]].
  unfold Squeeze.AsDesc, Squeeze.Init. simpl in *.
  by rewrite !wrap8_id.
Qed.

(** X18. The other way round: a squeezed description whose three byte
    members hold bytes is given back by expanding and squeezing it
    again. *)
Theorem uav_expand_roundtrip (s : Squeeze.D3D12_UNORDERED_ACCESS_VIEW_DESC_SQUEEZED) :
  squeezed_bytes s → Squeeze.Init (Squeeze.AsDesc s) = s.
Proof. apply uav_expand_roundtrip_any. Qed.

Lemma uav_expand_roundtrip_witness :
  let s := {| Squeeze.sq_Format := 255; Squeeze.sq_ViewDimension := 1;
              Squeeze.sq_BufferFlags := 0;
              Squeeze.sq_Buffer :=
                {| Squeeze.sq_FirstElement := 7; Squeeze.sq_NumElements := 64;
                   Squeeze.sq_StructureByteStride := 4;
                   Squeeze.sq_CounterOffsetInBytes := 0 |} |} in
  squeezed_bytes s ∧ Squeeze.Init (Squeeze.AsDesc s) = s.
Proof.
  intros s.
  assert (squeezed_bytes s) as Hs.
  { unfold squeezed_bytes, is_uint8. simpl. lia. }
  split; [exact Hs|]. exact (uav_expand_roundtrip s Hs).
Defined.

(** X19. Whatever the description, [Init] leaves bytes in the three
    byte members, copies the four buffer members unchanged, and is not
    changed by a further expand-and-squeeze; the expansion differs from
    the original only by the three enum members being reduced modulo
    256. *)
Theorem uav_squeeze_truncates (desc : Squeeze.D3D12_UNORDERED_ACCESS_VIEW_DESC) :
  squeezed_bytes (Squeeze.Init desc) ∧
  Squeeze.Init (Squeeze.AsDesc (Squeeze.Init desc)) = Squeeze.Init desc ∧
  Squeeze.AsDesc (Squeeze.Init desc) =
    {| Squeeze.Format := Squeeze.Format desc mod 256;
       Squeeze.ViewDimension := Squeeze.ViewDimension desc mod 256;
       Squeeze.Buffer :=
         {| Squeeze.FirstElement := Squeeze.FirstElement (Squeeze.Buffer desc);
            Squeeze.NumElements := Squeeze.NumElements (Squeeze.Buffer desc);
            Squeeze.StructureByteStride :=
              Squeeze.StructureByteStride (Squeeze.Buffer desc);
            Squeeze.CounterOffsetInBytes :=
              Squeeze.CounterOffsetInBytes (Squeeze.Buffer desc);
            Squeeze.Flags := Squeeze.Flags (Squeeze.Buffer desc) mod 256 |} |}.
Proof.
  assert (squeezed_bytes (Squeeze.Init desc)) as Hb.
  { repeat split; simpl; apply wrap8_range. }
  split; [exact Hb|]. split; [|reflexivity].
  exact (uav_expand_roundtrip_any (Squeeze.Init desc) Hb).
Qed.

(** ** GetType *)

(** X20. [GetType] answers [Sampler] exactly for a type member below
    [CBV] (so for every value a sampler filter can put there, and for a
    negative one), and answers the member itself otherwise; its answer
    is therefore never strictly between [Sampler] and [CBV], the six
    non-sampler tags are answered as they are, and classifying an answer
    again does not change it. *)
Theorem GetType_classifies (t : Z) :
  (Descriptor.GetType t = Descriptor.Sampler ↔ t < Descriptor.CBV) ∧
  (Descriptor.CBV ≤ t ↔ Descriptor.GetType t = t ∧ t ≠ Descriptor.Sampler) ∧
  (Descriptor.GetType t = Descriptor.Sampler ∨
   Descriptor.CBV ≤ Descriptor.GetType t) ∧
  Descriptor.GetType (Descriptor.GetType t) = Descriptor.GetType t ∧
  Forall (λ tag, Descriptor.GetType tag = tag)
    [Descriptor.Sampler; Descriptor.CBV; Descriptor.SRV; Descriptor.UAV;
     Descriptor.RTV; Descriptor.DSV; Descriptor.Undefined].
Proof.
  unfold Descriptor.GetType, Descriptor.Sampler, Descriptor.CBV.
  split; [|split; [|split; [|split]]].
  - case_decide; intuition lia.
  - case_decide; intuition lia.
  - case_decide; [by left|right; lia].
  - repeat case_decide; (done || lia).
  - repeat constructor.
Qed.
